(** * lab-orchestrator: the recipe rendering and materialisation pipeline

    A shallow embedding of [backend/src/generator.ts], [backend/src/generated.ts]
    and the recipe schema of [backend/src/schema.ts], together with the parts of
    Node's POSIX [path] module and of JavaScript's object and regular expression
    semantics that these functions rely on. *)

From Stdlib Require Import NArith Ascii String List Lia.
From Equations Require Import Equations.
From stdpp Require Import gmap list fin_maps.

Set Default Proof Using "Type".
Local Open Scope N_scope.

(** ** Strings

    A JavaScript string is a sequence of UTF-16 code units; the template
    pattern has no [u] flag, so it is matched code unit by code unit. *)

Abbreviation str := (list N).

(** An ASCII literal as a sequence of code units. *)
Definition lit (s : string) : str :=
  map N_of_ascii (list_ascii_of_string s).

(** [s.startsWith(p)], returning what follows the prefix. *)
Fixpoint strip_prefix (p s : str) : option str :=
  match p, s with
  | [], _ => Some s
  | a :: p', b :: s' => if a =? b then strip_prefix p' s' else None
  | _ :: _, [] => None
  end.

Definition startsWith (s p : str) : bool :=
  match strip_prefix p s with Some _ => true | None => false end.

(** ** JavaScript objects used as string-keyed records

    A property read [o[k]] consults the object's own properties and then its
    prototype. Every object in the generator is an ordinary object, so the
    prototype is [Object.prototype] and a read of one of its member names
    yields a built-in function (or the prototype object itself for
    [__proto__]) rather than [undefined]. *)

Inductive jsval :=
| VStr (s : str)
| VNative (fname : str)
| VObjectPrototype.

#[global] Instance jsval_eq_dec : EqDecision jsval.
Proof. solve_decision. Defined.

Definition object_prototype_methods : list str :=
  map lit [ "__defineGetter__"; "__defineSetter__"; "hasOwnProperty";
            "__lookupGetter__"; "__lookupSetter__"; "isPrototypeOf";
            "propertyIsEnumerable"; "toString"; "valueOf";
            "toLocaleString" ]%string.

Definition object_prototype (k : str) : option jsval :=
  if decide (k = lit "constructor") then Some (VNative (lit "Object"))
  else if decide (k = lit "__proto__") then Some VObjectPrototype
  else if decide (k ∈ object_prototype_methods) then Some (VNative k)
  else None.

(** [o[k]]: [None] stands for [undefined]. *)
Definition js_get (o : gmap str jsval) (k : str) : option jsval :=
  match o !! k with
  | Some v => Some v
  | None => object_prototype k
  end.

(** [o[k] = v] on an ordinary object: the name [__proto__] reaches the
    inherited setter and never creates an own property. *)
Definition js_set (o : gmap str jsval) (k : str) (v : jsval) : gmap str jsval :=
  if decide (k = lit "__proto__") then o else <[k := v]> o.

(** [x ?? d] *)
Definition nullish (x : option jsval) (d : jsval) : jsval :=
  match x with Some v => v | None => d end.

(** The string conversion applied to a replacer's result (the text printed
    for a built-in function is the one V8 gives). *)
Definition ToString (v : jsval) : str :=
  match v with
  | VStr s => s
  | VNative f => lit "function " ++ f ++ lit "() { [native code] }"
  | VObjectPrototype => lit "[object Object]"
  end.

(** [!v] *)
Definition falsy (v : jsval) : bool :=
  match v with VStr [] => true | _ => false end.

(** ** The template renderer *)

(** [\s] *)
Definition is_space (c : N) : bool :=
  ((9 <=? c) && (c <=? 13)) || (c =? 32) || (c =? 160) || (c =? 5760)
  || ((8192 <=? c) && (c <=? 8202)) || (c =? 8232) || (c =? 8233)
  || (c =? 8239) || (c =? 8287) || (c =? 12288) || (c =? 65279).

(** [[A-Za-z0-9_]] *)
Definition is_word (c : N) : bool :=
  ((65 <=? c) && (c <=? 90)) || ((97 <=? c) && (c <=? 122))
  || ((48 <=? c) && (c <=? 57)) || (c =? 95).

Fixpoint span (p : N → bool) (s : str) : str * str :=
  match s with
  | c :: s' => if p c then let '(a, b) := span p s' in (c :: a, b) else ([], s)
  | [] => ([], [])
  end.

(** One attempt of [/{{\s*([A-Za-z0-9_]+)\s*}}/] at the start of [s]: the
    captured key and the text after the match. The three character classes
    and the braces are pairwise disjoint, so the greedy runs taken here are
    the only way the pattern can match and backtracking adds nothing. *)
Definition match_token (s : str) : option (str * str) :=
  match strip_prefix (lit "{{") s with
  | None => None
  | Some s1 =>
      let '(_, s2) := span is_space s1 in
      let '(key, s3) := span is_word s2 in
      match key with
      | [] => None
      | _ :: _ =>
          let '(_, s4) := span is_space s3 in
          match strip_prefix (lit "}}") s4 with
          | Some rest => Some (key, rest)
          | None => None
          end
      end
  end.

Definition inspect {A} (a : A) : {b : A | a = b} := exist _ a eq_refl.

(** The replacer [(_, key) => context[key] ?? ""], with its result converted
    to a string as [String.prototype.replace] does. *)
Definition replacer (context : gmap str jsval) (k : str) : str :=
  ToString (nullish (js_get context k) (VStr [])).

(** [template.replace(templatePattern, ...)] with the [g] flag: scan from
    the left; where the pattern matches, emit the replacement and go on
    after the match, otherwise copy one code unit. *)
Equations renderTemplate (context : gmap str jsval) (template : str) : str
  by wf (length template) lt :=
renderTemplate context [] := [];
renderTemplate context (c :: s) with inspect (match_token (c :: s)) := {
  | exist _ (Some (k, rest)) H => replacer context k ++ renderTemplate context rest;
  | exist _ None _ => c :: renderTemplate context s }.
Next Obligation.
  intros context c s k rest H _.
  assert (Hstrip : ∀ p t r, strip_prefix p t = Some r →
                            length t = (length p + length r)%nat).
  { induction p as [|a p IH]; intros [|b t] r; simpl; try congruence.
    - intros [= <-]; reflexivity.
    - intros [= <-]; reflexivity.
    - destruct (a =? b); [|congruence]. intros E. apply IH in E. lia. }
  assert (Hspan : ∀ p t, (length (span p t).2 ≤ length t)%nat).
  { intros p t. induction t as [|x t IH]; simpl; [lia|].
    destruct (p x); simpl; [|lia]. destruct (span p t); simpl in *; lia. }
  unfold match_token in H.
  destruct (strip_prefix (lit "{{") (c :: s)) as [s1|] eqn:H1; [|congruence].
  apply Hstrip in H1.
  pose proof (Hspan is_space s1) as L1. destruct (span is_space s1) as [w1 s2].
  pose proof (Hspan is_word s2) as L2. destruct (span is_word s2) as [key s3].
  destruct key; [congruence|].
  pose proof (Hspan is_space s3) as L3. destruct (span is_space s3) as [w2 s4].
  destruct (strip_prefix (lit "}}") s4) as [r|] eqn:H4; [|congruence].
  apply Hstrip in H4. injection H as _ <-. simpl in *. lia.
Qed.
Next Obligation. intros; simpl; lia. Qed.

(** ** Node's POSIX [path] module *)

Definition slash : N := 47.

(** [s.split("/")] *)
Fixpoint split_slash (s : str) : list str :=
  match s with
  | [] => [[]]
  | c :: s' =>
      if c =? slash then [] :: split_slash s'
      else match split_slash s' with
           | seg :: segs => (c :: seg) :: segs
           | [] => [[c]]
           end
  end.

(** [segs.join("/")] *)
Fixpoint join_slash (segs : list str) : str :=
  match segs with
  | [] => []
  | [seg] => seg
  | seg :: segs' => seg ++ slash :: join_slash segs'
  end.

(** One segment of [normalizeString]; [res] holds the segments kept so far,
    the last one first. Empty and [.] segments are dropped; [..] removes the
    last kept segment unless there is none or it is [..] itself, in which
    case it is kept only when the path may climb above its root. *)
Definition push_segment (allowAboveRoot : bool) (res : list str) (seg : str)
  : list str :=
  if decide (seg = []) then res
  else if decide (seg = lit ".") then res
  else if decide (seg = lit "..") then
    match res with
    | last :: res' =>
        if decide (last = lit "..")
        then (if allowAboveRoot then seg :: res else res)
        else res'
    | [] => if allowAboveRoot then [seg] else []
    end
  else seg :: res.

Definition normalize_segments (allowAboveRoot : bool) (path : str) : list str :=
  rev (fold_left (push_segment allowAboveRoot) (split_slash path) []).

Definition normalizeString (path : str) (allowAboveRoot : bool) : str :=
  join_slash (normalize_segments allowAboveRoot path).

Definition is_absolute (p : str) : bool :=
  match p with c :: _ => c =? slash | [] => false end.

Definition ends_with_slash (p : str) : bool :=
  match rev p with c :: _ => c =? slash | [] => false end.

(** [path.normalize] *)
Definition path_normalize (p : str) : str :=
  if decide (p = []) then lit "."
  else
    let n := normalizeString p (negb (is_absolute p)) in
    if decide (n = []) then
      (if is_absolute p then lit "/"
       else if ends_with_slash p then lit "./" else lit ".")
    else
      let n' := if ends_with_slash p then n ++ [slash] else n in
      if is_absolute p then slash :: n' else n'.

(** [path.join(...args)] *)
Definition path_join (args : list str) : str :=
  match filter (λ a, a ≠ []) args with
  | [] => lit "."
  | parts => path_normalize (join_slash parts)
  end.

(** The loop of [path.resolve]: arguments are taken from the right, then the
    working directory, until an absolute one has been prepended. *)
Fixpoint resolve_loop (paths : list str) (resolvedPath : str) : str * bool :=
  match paths with
  | [] => (resolvedPath, false)
  | p :: ps =>
      if decide (p = []) then resolve_loop ps resolvedPath
      else
        let r := p ++ slash :: resolvedPath in
        if is_absolute p then (r, true) else resolve_loop ps r
  end.

(** [path.resolve(...args)], with [process.cwd()] made explicit. *)
Definition path_resolve (cwd : str) (args : list str) : str :=
  let '(resolvedPath, resolvedAbsolute) := resolve_loop (rev args ++ [cwd]) [] in
  let n := normalizeString resolvedPath (negb resolvedAbsolute) in
  if resolvedAbsolute then slash :: n
  else if decide (n = []) then lit "." else n.

(** [path.dirname]: cut at the last slash, at index 1 or later, that is
    followed by something other than slashes. *)
Definition path_dirname (p : str) : str :=
  match p with
  | [] => lit "."
  | c :: body =>
      let r1 := (span (λ x, x =? slash) (rev body)).2 in
      let r2 := (span (λ x, negb (x =? slash)) r1).2 in
      match r2 with
      | [] => if c =? slash then lit "/" else lit "."
      | _ :: rest =>
          if (c =? slash) && bool_decide (rest = []) then lit "//"
          else c :: rev rest
      end
  end.

(** Lexical containment: [p] is [base] itself or lies below it, segment by
    segment. *)
Definition within (base p : str) : bool :=
  bool_decide (split_slash base `prefix_of` split_slash p).

(** ** The recipe schema ([schema.ts]) *)

Record RecipeVariable := {
  v_key : str;
  v_label : str;
  v_default : str;
  v_required : bool;
  v_options : option (list str);
  v_secret : option bool;
  v_description : option str }.

Record RecipeFile := {
  f_path : str;
  f_content : str }.

Inductive Difficulty := easy | medium | hard.

Record Recipe := {
  r_id : str;
  r_name : str;
  r_description : str;
  r_tags : list str;
  r_difficulty : Difficulty;
  variables : list RecipeVariable;
  composeTemplate : str;
  envTemplate : str;
  readmeTemplate : str;
  seedFiles : option (list RecipeFile);
  extraFiles : option (list RecipeFile) }.

Definition is_upper (c : N) : bool := (65 <=? c) && (c <=? 90).
Definition is_lower (c : N) : bool := (97 <=? c) && (c <=? 122).
Definition is_digit (c : N) : bool := (48 <=? c) && (c <=? 57).

(** [/^[A-Z][A-Z0-9_]*$/], the pattern of [RecipeVariableSchema.key]. *)
Definition key_pattern (k : str) : bool :=
  match k with
  | c :: rest =>
      is_upper c && forallb (λ x, is_upper x || is_digit x || (x =? 95)) rest
  | [] => false
  end.

(** [/^[a-z0-9][a-z0-9-]*$/], the pattern of [GenerateRequestSchema.projectName]. *)
Definition projectName_pattern (n : str) : bool :=
  match n with
  | c :: rest =>
      (is_lower c || is_digit c)
      && forallb (λ x, is_lower x || is_digit x || (x =? 45)) rest
  | [] => false
  end.

(** The part of [RecipeSchema] that constrains variable keys. *)
Definition RecipeVariableSchema_keys (r : Recipe) : bool :=
  forallb (λ v, key_pattern (v_key v)) (variables r).

(** ** Effects

    A call performs file-system operations and then returns or throws. The
    operations themselves are taken to succeed; a failing [mkdir] or
    [writeFile] is outside this model. The lists of operations for which
    this is what Node does are those that [fs_clean], defined below with
    the files on disk, accepts. *)

Inductive completion (A : Type) :=
| Return (a : A)
| Throw (message : str).
Arguments Return {A} a.
Arguments Throw {A} message.

Inductive fs_op :=
| Mkdir (dir : str)
| WriteFile (file : str) (data : str).

Definition io (A : Type) : Type := list fs_op * completion A.

Definition io_ret {A} (a : A) : io A := ([], Return a).

Definition io_bind {A B} (m : io A) (f : A → io B) : io B :=
  match m with
  | (ops, Return a) => let '(ops', c) := f a in (ops ++ ops', c)
  | (ops, Throw e) => (ops, Throw e)
  end.

Definition io_do (op : fs_op) : io unit := ([op], Return tt).

Definition io_lift {A} (c : completion A) : io A := ([], c).

Notation "'let*' x ':=' m 'in' k" := (io_bind m (λ x, k))
  (at level 10, x name, m at level 100, k at level 200, only parsing).

(** [for (const x of xs) body(x)] *)
Fixpoint for_of {A} (xs : list A) (body : A → io unit) : io unit :=
  match xs with
  | [] => io_ret tt
  | x :: xs' => let* _ := body x in for_of xs' body
  end.

(** ** The generator ([generator.ts]) *)

Record GenerateResult := {
  projectDir : str;
  files_compose : str;
  files_env : str;
  files_readme : str }.

(** [Object.fromEntries(entries)]: a later entry replaces an earlier one
    with the same key. *)
Definition Object_fromEntries (entries : list (str * jsval)) : gmap str jsval :=
  fold_left (λ o e, <[e.1 := e.2]> o) entries ∅.

(** [variables[variable.key] ?? variable.default] *)
Definition bound_value (variables : gmap str jsval) (v : RecipeVariable) : jsval :=
  nullish (js_get variables (v_key v)) (VStr (v_default v)).

(** [{ projectName, ...Object.fromEntries(...) }]: the spread properties are
    written after [projectName] and replace it on a clash. *)
Definition render_context (recipe : Recipe) (projectName : str)
    (vars : gmap str jsval) : gmap str jsval :=
  Object_fromEntries (map (λ v, (v_key v, bound_value vars v)) (variables recipe))
  ∪ {[ lit "projectName" := VStr projectName ]}.

(** [xs?.length] as a condition, then the list to iterate. *)
Definition if_nonempty {A} (xs : option (list A)) (k : list A → io unit) : io unit :=
  match xs with
  | Some (x :: xs') => k (x :: xs')
  | _ => io_ret tt
  end.

Section Generator.

(** [process.cwd()] and [paths.generatedDir]. *)
Variable cwd : str.
Variable generatedDir : str.

Definition safeJoin (base target : str) : completion str :=
  let targetPath := path_resolve cwd [base; target] in
  if negb (startsWith targetPath base)
  then Throw (lit "Invalid file path: " ++ target)
  else Return targetPath.

(** The body of the loop over [recipe.seedFiles]. *)
Definition write_seed (context : gmap str jsval) (projectDir : str)
    (file : RecipeFile) : io unit :=
  let renderedPath := renderTemplate context (f_path file) in
  let* targetPath :=
    io_lift (safeJoin projectDir (path_join [lit "seed"; renderedPath])) in
  let* _ := io_do (Mkdir (path_dirname targetPath)) in
  io_do (WriteFile targetPath (renderTemplate context (f_content file))).

(** The body of the loop over [recipe.extraFiles]. *)
Definition write_extra (context : gmap str jsval) (projectDir : str)
    (file : RecipeFile) : io unit :=
  let renderedPath := renderTemplate context (f_path file) in
  let* targetPath := io_lift (safeJoin projectDir renderedPath) in
  let* _ := io_do (Mkdir (path_dirname targetPath)) in
  io_do (WriteFile targetPath (renderTemplate context (f_content file))).

Definition generateProject (recipe : Recipe) (projectName : str)
    (vars : gmap str jsval) : io GenerateResult :=
  let context := render_context recipe projectName vars in
  let projectDir := path_join [generatedDir; projectName] in
  let* _ := io_do (Mkdir projectDir) in
  let compose := renderTemplate context (composeTemplate recipe) in
  let env := renderTemplate context (envTemplate recipe) in
  let readme := renderTemplate context (readmeTemplate recipe) in
  let* _ := io_do (WriteFile (path_join [projectDir; lit "docker-compose.yml"]) compose) in
  let* _ := io_do (WriteFile (path_join [projectDir; lit ".env"]) env) in
  let* _ := io_do (WriteFile (path_join [projectDir; lit "README.md"]) readme) in
  let* _ :=
    if_nonempty (seedFiles recipe) (λ seeds,
      let seedDir := path_join [projectDir; lit "seed"] in
      let* _ := io_do (Mkdir seedDir) in
      for_of seeds (write_seed context projectDir)) in
  let* _ :=
    if_nonempty (extraFiles recipe) (λ extras,
      for_of extras (write_extra context projectDir)) in
  io_ret {| projectDir := projectDir;
            files_compose := compose;
            files_env := env;
            files_readme := readme |}.

End Generator.

Definition getMissingRequired (recipe : Recipe) (vars : gmap str jsval) : list str :=
  map v_key
    (filter (λ v, v_required v && falsy (bound_value vars v) = true)
            (variables recipe)).

(** [if (variable.secret)]: an absent flag counts as false. *)
Definition is_secret (v : RecipeVariable) : bool :=
  match v_secret v with Some b => b | None => false end.

Definition redactVariables (recipe : Recipe) (vars : gmap str jsval)
  : gmap str jsval :=
  fold_left
    (λ redacted v,
       if is_secret v
       then js_set redacted (v_key v) (VStr (lit "***"))
       else js_set redacted (v_key v) (bound_value vars v))
    (variables recipe) ∅.

(** ** The generation index ([generated.ts]) *)

Record GeneratedRecord := {
  g_projectName : str;
  g_recipeId : str;
  g_createdAt : str;
  g_path : str;
  g_variables : gmap str jsval }.

(** What [paths.generatedIndex] holds: nothing that parses, a JSON value
    that is not an array, or an array of records. *)
Inductive index_file :=
| Unreadable
| NotAnArray
| IndexArray (records : list GeneratedRecord).

Definition readGeneratedIndex (f : index_file) : list GeneratedRecord :=
  match f with
  | IndexArray records => records
  | NotAnArray => []
  | Unreadable => []
  end.

(** Returns the new content of the index file. *)
Definition appendGeneratedRecord (record : GeneratedRecord) (f : index_file)
  : index_file :=
  let existing := readGeneratedIndex f in
  let updated := take 100 (record :: existing) in
  IndexArray updated.

(** ** Notions used in the statements *)

(** A placeholder as the pattern describes it: [{{], white space, a
    non-empty key of word characters, white space, [}}]. *)
Definition placeholder (ws1 k ws2 : str) : str :=
  lit "{{" ++ ws1 ++ k ++ ws2 ++ lit "}}".

(** A key as the pattern captures it. *)
Definition is_key (k : str) : bool :=
  negb (bool_decide (k = [])) && forallb is_word k.

(** What [redactVariables] assigns for one variable. *)
Definition redacted_value (vars : gmap str jsval) (v : RecipeVariable) : jsval :=
  if is_secret v then VStr (lit "***") else bound_value vars v.

(** [paths.generatedDir] as [paths.ts] computes it from the root directory. *)
Definition paths_generatedDir (rootDir : str) : str :=
  path_join [rootDir; lit "generated"].

(** ** Recipes used in the examples *)

Definition example_variable (k d : string) (required : bool)
    (secret : option bool) : RecipeVariable :=
  {| v_key := lit k; v_label := lit "label"; v_default := lit d;
     v_required := required; v_options := None; v_secret := secret;
     v_description := None |}.

Definition example_recipe (vars : list RecipeVariable) (compose : string)
    (seeds extras : option (list RecipeFile)) : Recipe :=
  {| r_id := lit "example"; r_name := lit "Example";
     r_description := lit "An example"; r_tags := []; r_difficulty := easy;
     variables := vars; composeTemplate := lit compose;
     envTemplate := lit "NAME={{projectName}}";
     readmeTemplate := lit "# {{ projectName }}";
     seedFiles := seeds; extraFiles := extras |}.

(** The recipe of the end-to-end example: one variable [TAG] with default
    [latest]. *)
Definition tag_recipe : Recipe :=
  example_recipe [example_variable "TAG" "latest" false None]
                 "image: {{TAG}}" None None.

(** A recipe with one extra file whose path climbs out of the project
    directory into a sibling that shares its name as a prefix. *)
Definition escaping_recipe : Recipe :=
  example_recipe [] "image: busybox" None
    (Some [ {| f_path := lit "../{{projectName}}-evil/x";
               f_content := lit "data" |} ]).

(** The recipe of the required-variable example: [DB_PASS], required, with
    an empty default. *)
Definition dbpass_recipe : Recipe :=
  example_recipe [example_variable "DB_PASS" "" true None]
                 "image: postgres" None None.

(** ** The binder as the specification words it

    These two definitions follow the specification's sentences, not the
    code; they are what the code is compared with. *)

(** "the override value if present and non-empty, else the variable's
    default" *)
Definition spec_effective_value (vars : gmap str jsval) (v : RecipeVariable)
  : jsval :=
  match vars !! v_key v with
  | Some x => if falsy x then VStr (v_default v) else x
  | None => VStr (v_default v)
  end.

(** "the ordered list of variable keys where [required] is true and neither
    an override nor a non-empty default resolves to a non-empty string" *)
Definition spec_missingRequired (recipe : Recipe) (vars : gmap str jsval)
  : list str :=
  map v_key
    (filter (λ v, v_required v && falsy (spec_effective_value vars v) = true)
            (variables recipe)).

(** ** Reading a run of the generator *)

(** The files written, in order, with their content. *)
Definition writes (ops : list fs_op) : list (str * str) :=
  flat_map (λ op, match op with
                  | WriteFile f d => [(f, d)]
                  | Mkdir _ => []
                  end) ops.

(** The sandbox's answer for the rendered path of a seed file, and the
    file's rendered content; the same for an extra file. *)
Definition planned_seed (cwd : str) (context : gmap str jsval)
    (projectDir : str) (f : RecipeFile) : completion str * str :=
  (safeJoin cwd projectDir
     (path_join [lit "seed"; renderTemplate context (f_path f)]),
   renderTemplate context (f_content f)).

Definition planned_extra (cwd : str) (context : gmap str jsval)
    (projectDir : str) (f : RecipeFile) : completion str * str :=
  (safeJoin cwd projectDir (renderTemplate context (f_path f)),
   renderTemplate context (f_content f)).

(** The seed files and then the extra files, in declared order. *)
Definition planned_files (cwd : str) (context : gmap str jsval)
    (projectDir : str) (recipe : Recipe) : list (completion str * str) :=
  map (planned_seed cwd context projectDir) (default [] (seedFiles recipe))
  ++ map (planned_extra cwd context projectDir) (default [] (extraFiles recipe)).

(** What the loops do with one planned file: stop if the sandbox threw,
    else create the directory and write the file. *)
Definition write_planned (e : completion str * str) : io unit :=
  let* targetPath := io_lift e.1 in
  let* _ := io_do (Mkdir (path_dirname targetPath)) in
  io_do (WriteFile targetPath e.2).

(** The planned files that the sandbox accepted, as writes. *)
Definition accepted (plan : list (completion str * str)) : list (str * str) :=
  flat_map (λ e, match e.1 with
                 | Return p => [(p, e.2)]
                 | Throw _ => []
                 end) plan.

Definition is_return {A} (c : completion A) : bool :=
  match c with Return _ => true | Throw _ => false end.

(** A path segment that normalisation leaves alone: not empty, not [.] or
    [..], and without a slash. *)
Definition clean_segment (seg : str) : bool :=
  negb (bool_decide (seg = [])) && negb (bool_decide (seg = lit "."))
  && negb (bool_decide (seg = lit "..")) && forallb (λ c, negb (c =? slash)) seg.

(** The absolute path with the given segments. *)
Definition abs_path (segs : list str) : str := slash :: join_slash segs.

(** A recipe with one seed file and three extra files, the second of which
    has an absolute path. *)
Definition aborting_recipe : Recipe :=
  example_recipe [example_variable "TAG" "latest" false None] "image: {{TAG}}"
    (Some [ {| f_path := lit "a.sql"; f_content := lit "select 1;" |} ])
    (Some [ {| f_path := lit "conf/{{TAG}}.txt"; f_content := lit "first" |};
            {| f_path := lit "/etc/passwd"; f_content := lit "second" |};
            {| f_path := lit "notes.txt"; f_content := lit "third" |} ]).

(** ** One pass over the template

    The placeholders of a template, found by reading the template alone
    from left to right: each match of the pattern is a [Token] with its
    key, every other code unit is [Text]. *)

Inductive segment :=
| Text (c : N)
| Token (key : str).

Equations tokens (template : str) : list segment by wf (length template) lt :=
tokens [] := [];
tokens (c :: s) with inspect (match_token (c :: s)) := {
  | exist _ (Some (k, rest)) H => Token k :: tokens rest;
  | exist _ None _ => Text c :: tokens s }.
Next Obligation.
  intros c s k rest H _.
  assert (Hstrip : ∀ p t r, strip_prefix p t = Some r →
                            length t = (length p + length r)%nat).
  { induction p as [|a p IH]; intros [|b t] r; simpl; try congruence.
    - intros [= <-]; reflexivity.
    - intros [= <-]; reflexivity.
    - destruct (a =? b); [|congruence]. intros E. apply IH in E. lia. }
  assert (Hspan : ∀ p t, (length (span p t).2 ≤ length t)%nat).
  { intros p t. induction t as [|x t IH]; simpl; [lia|].
    destruct (p x); simpl; [|lia]. destruct (span p t); simpl in *; lia. }
  unfold match_token in H.
  destruct (strip_prefix (lit "{{") (c :: s)) as [s1|] eqn:H1; [|congruence].
  apply Hstrip in H1.
  pose proof (Hspan is_space s1) as L1. destruct (span is_space s1) as [w1 s2].
  pose proof (Hspan is_word s2) as L2. destruct (span is_word s2) as [key s3].
  destruct key; [congruence|].
  pose proof (Hspan is_space s3) as L3. destruct (span is_space s3) as [w2 s4].
  destruct (strip_prefix (lit "}}") s4) as [r|] eqn:H4; [|congruence].
  apply Hstrip in H4. injection H as _ <-. simpl in *. lia.
Qed.
Next Obligation. intros; simpl; lia. Qed.

(** Putting the replacer's text in the place of each token. *)
Definition substitute (context : gmap str jsval) (segments : list segment) : str :=
  flat_map (λ seg, match seg with
                   | Text c => [c]
                   | Token k => replacer context k
                   end) segments.

(** ** Further notions used in the statements *)

(** No two consecutive opening braces: the text has no place where the
    template pattern could begin. *)
Fixpoint no_placeholder_start (t : str) : bool :=
  match t with
  | [] => true
  | c :: t' =>
      negb ((c =? 123) && match t' with c' :: _ => c' =? 123 | [] => false end)
      && no_placeholder_start t'
  end.

(** ** Files on disk

    The files are kept by path. The model is a case-sensitive POSIX file
    system without links, where two normalised paths name the same file
    only if they are the same text. Text goes to disk as UTF-8 and comes
    back through a UTF-8 decoder, which turns every unpaired surrogate into
    U+FFFD; [utf8_text] is that round trip on code units. *)

Definition is_high_surrogate (c : N) : bool := (55296 <=? c) && (c <=? 56319).
Definition is_low_surrogate (c : N) : bool := (56320 <=? c) && (c <=? 57343).

Fixpoint utf8_text (s : str) : str :=
  match s with
  | [] => []
  | c :: s' =>
      if is_high_surrogate c then
        match s' with
        | c' :: s'' =>
            if is_low_surrogate c' then c :: c' :: utf8_text s''
            else 65533 :: utf8_text s'
        | [] => [65533]
        end
      else if is_low_surrogate c then 65533 :: utf8_text s'
      else c :: utf8_text s'
  end.

(** [fs.mkdir(dir, { recursive: true })] leaves the files as they are;
    [fs.writeFile(file, data, "utf-8")] creates or replaces one file. *)
Definition apply_op (files : gmap str str) (op : fs_op) : gmap str str :=
  match op with
  | Mkdir _ => files
  | WriteFile f d => <[utf8_text f := utf8_text d]> files
  end.

Definition apply_ops (ops : list fs_op) (files : gmap str str) : gmap str str :=
  fold_left apply_op ops files.

(** [fs.readFile(file, "utf-8")]; [None] when there is no such file. *)
Definition readFile (files : gmap str str) (file : str) : option str :=
  files !! utf8_text file.

Record GeneratedFiles := {
  gf_compose : str;
  gf_env : str;
  gf_readme : str }.

(** [readGeneratedFiles] ([generated.ts]): the three reads of
    [Promise.all]; [None] when one of them is rejected. *)
Definition readGeneratedFiles (generatedDir : str) (files : gmap str str)
    (projectName : str) : option GeneratedFiles :=
  let projectDir := path_join [generatedDir; projectName] in
  compose ← readFile files (path_join [projectDir; lit "docker-compose.yml"]);
  env ← readFile files (path_join [projectDir; lit ".env"]);
  readme ← readFile files (path_join [projectDir; lit "README.md"]);
  Some {| gf_compose := compose; gf_env := env; gf_readme := readme |}.

(** ** When the operations of one call get in each other's way

    Where a path leads: the segments of the absolute path it resolves to,
    as they reach the disk. *)
Definition location (cwd p : str) : list str :=
  map utf8_text (normalize_segments false (path_resolve cwd [p])).

Definition op_path (op : fs_op) : str :=
  match op with Mkdir d => d | WriteFile f _ => f end.

(** A path the system calls take: no NUL in it, and short enough for the
    usual limits (255 bytes a name and 4096 a path; a code unit takes at
    most three bytes). *)
Definition nameable (cwd p : str) : bool :=
  negb (bool_decide (p = []))
  && negb (bool_decide (0 ∈ p))
  && bool_decide (length p ≤ 1365)%nat
  && forallb (λ seg, bool_decide (length seg ≤ 85)%nat) (location cwd p).

(** A path that can name a file: not the root and without a slash at its
    end. *)
Definition names_file (cwd f : str) : bool :=
  negb (ends_with_slash f) && negb (bool_decide (location cwd f = [])).

(** [op] cannot succeed after [earlier] did: a file cannot be written where
    [earlier] made a directory or needed one, nor below a file, and no
    directory can be made at or below a file that [earlier] wrote. *)
Definition blocks (cwd : str) (earlier op : fs_op) : bool :=
  match earlier, op with
  | Mkdir d, WriteFile f _ =>
      bool_decide (location cwd f `prefix_of` location cwd d)
  | WriteFile f' _, WriteFile f _ =>
      bool_decide (location cwd f ≠ location cwd f'
                   ∧ (location cwd f `prefix_of` location cwd f'
                      ∨ location cwd f' `prefix_of` location cwd f))
  | WriteFile f' _, Mkdir d =>
      bool_decide (location cwd f' `prefix_of` location cwd d)
  | Mkdir _, Mkdir _ => false
  end.

Fixpoint fs_clean_from (cwd : str) (earlier ops : list fs_op) : bool :=
  match ops with
  | [] => true
  | op :: ops' =>
      nameable cwd (op_path op)
      && match op with WriteFile f _ => names_file cwd f | Mkdir _ => true end
      && forallb (λ e, negb (blocks cwd e op)) earlier
      && fs_clean_from cwd (earlier ++ [op]) ops'
  end.

(** The operations of a call do not defeat one another: each is given a
    path the system calls take, files are written to paths that can name a
    file, and no operation runs into what an earlier one of the list left
    on disk. [io_do] takes every operation to succeed; that is the
    behaviour of [fs.mkdir] with [recursive] and of [fs.writeFile] for such
    a list, on a file system that tells names apart byte by byte, when what
    was on disk before the call (files, links, permissions, free space) is
    not in the way. For a list that is not clean the real call can throw at
    an operation that the list shows as done, as [fs.writeFile] does with
    [EISDIR] when its target is a directory that the call made itself:
    statements about what a run completes carry [fs_clean] as a
    hypothesis. *)
Definition fs_clean (cwd : str) (ops : list fs_op) : bool :=
  fs_clean_from cwd [] ops.

(** ** The handler of [POST /api/generate] ([index.ts]) *)

(** The request body, once its three fields have their types. *)
Record GenerateRequest := {
  q_recipeId : str;
  q_projectName : str;
  q_variables : gmap str str }.

(** [GenerateRequestSchema]: a non-empty recipe id and a project name that
    matches its pattern. *)
Definition GenerateRequestSchema (q : GenerateRequest) : bool :=
  negb (bool_decide (q_recipeId q = [])) && projectName_pattern (q_projectName q).

(** The [variables] object that the schema hands on: the string entries of
    the body; an entry [__proto__] does not become an own property. *)
Definition parsed_variables (q : GenerateRequest) : gmap str jsval :=
  delete (lit "__proto__") (VStr <$> q_variables q).

Inductive GenerateReply :=
| BadRequest
| RecipeNotFound
| MissingRequired (missing : list str)
| Generated (project : str) (files : GenerateResult)
| Failed (message : str).

(** The handler, with [getRecipeById] taken as a lookup in the catalogue
    (a recipe file that is absent or does not pass [RecipeSchema] gives
    [None]) and the clock as the text of [new Date().toISOString()]. It
    yields the file operations performed, the record handed to
    [appendGeneratedRecord] if the handler gets that far, and the reply;
    [Failed] stands for an error thrown out of the handler. *)
Definition generate_handler (cwd generatedDir : str)
    (catalog : str → option Recipe) (now : str) (q : GenerateRequest)
  : list fs_op * option GeneratedRecord * GenerateReply :=
  if negb (GenerateRequestSchema q) then ([], None, BadRequest)
  else
    match catalog (q_recipeId q) with
    | None => ([], None, RecipeNotFound)
    | Some recipe =>
        match getMissingRequired recipe (parsed_variables q) with
        | (_ :: _) as missing => ([], None, MissingRequired missing)
        | [] =>
            match generateProject cwd generatedDir recipe (q_projectName q)
                                  (parsed_variables q) with
            | (ops, Throw e) => (ops, None, Failed e)
            | (ops, Return result) =>
                (ops,
                 Some {| g_projectName := q_projectName q;
                         g_recipeId := r_id recipe;
                         g_createdAt := now;
                         g_path := projectDir result;
                         g_variables :=
                           redactVariables recipe (parsed_variables q) |},
                 Generated (projectDir result) result)
            end
        end
    end.

(** [/^[a-z0-9]+(?:-[a-z0-9]+)*$/], the pattern of [RecipeSchema.id]: one
    or more non-empty groups of lower-case letters and digits, separated by
    single hyphens. [id_groups] says whether the text, read from a position
    where a group is under way ([true]) or must begin ([false]), is made of
    such groups. *)
Fixpoint id_groups (in_group : bool) (s : str) : bool :=
  match s with
  | [] => in_group
  | c :: s' =>
      if is_lower c || is_digit c then id_groups true s'
      else if c =? 45 then in_group && id_groups false s'
      else false
  end.

Definition id_pattern (s : str) : bool := id_groups false s.

(** The planned files that the sandbox accepts all lie elsewhere than the
    given paths. *)
Definition spares (plan : list (completion str * str)) (paths : list str) : bool :=
  forallb (λ e, match e.1 with
                | Return p => negb (bool_decide (utf8_text p ∈ map utf8_text paths))
                | Throw _ => true
                end) plan.

(** Text without surrogates, which the UTF-8 round trip leaves alone. *)
Definition no_surrogates (s : str) : bool :=
  forallb (λ c, negb (is_high_surrogate c) && negb (is_low_surrogate c)) s.

(** ** The recipe files ([recipes.ts]) *)

(** [recipeFilePath]: [path.join(paths.recipesDir, `${id}.yml`)]. *)
Definition recipeFilePath (recipesDir id : str) : str :=
  path_join [recipesDir; id ++ lit ".yml"].

(** [timestamp.replace(/[:.]/g, "-")] *)
Definition sanitize_timestamp (iso : str) : str :=
  map (λ c, if (c =? 58) || (c =? 46) then 45 else c) iso.

(** [updateRecipe], with [yaml.dump(recipe, { lineWidth: 120 })] given as
    [yamlText] and the clock as the text of [new Date().toISOString()]. The
    read of the current file comes first and ends the call when there is no
    such file. *)
Definition updateRecipe (recipesDir historyDir now : str)
    (files : gmap str str) (id yamlText : str) : io unit :=
  let filePath := recipeFilePath recipesDir id in
  let* existing :=
    io_lift (match readFile files filePath with
             | Some text => Return text
             | None => Throw (lit "ENOENT: no such file or directory, open '"
                              ++ filePath ++ lit "'")
             end) in
  let historyPath := path_join [historyDir; id] in
  let* _ := io_do (Mkdir historyPath) in
  let timestamp := sanitize_timestamp now in
  let* _ := io_do (WriteFile (path_join [historyPath; timestamp ++ lit ".yml"])
                             existing) in
  io_do (WriteFile filePath yamlText).

(** * Properties *)

(** ** The renderer's defining equations *)

Lemma renderTemplate_nil context : renderTemplate context [] = [].
Proof. by simp renderTemplate. Qed.

Lemma match_token_nil : match_token [] = None.
Proof. reflexivity. Qed.

Lemma renderTemplate_token context s k rest :
  match_token s = Some (k, rest) →
  renderTemplate context s = replacer context k ++ renderTemplate context rest.
Proof.
  intros Hm. destruct s as [|c s]; [done|].
  simp renderTemplate.
  destruct (inspect (match_token (c :: s))) as [[[k' rest']|] e]; simpl.
  - rewrite Hm in e. by injection e as <- <-.
  - congruence.
Qed.

Lemma renderTemplate_char context c s :
  match_token (c :: s) = None →
  renderTemplate context (c :: s) = c :: renderTemplate context s.
Proof.
  intros Hm. simp renderTemplate.
  destruct (inspect (match_token (c :: s))) as [[[k' rest']|] e]; simpl.
  - congruence.
  - done.
Qed.

(** ** The shape of a placeholder *)

Lemma word_not_space c : is_word c = true → is_space c = false.
Proof.
  unfold is_word, is_space. intros H.
  repeat (apply orb_false_intro); try apply andb_false_iff;
    rewrite ?N.eqb_neq, ?N.leb_gt;
    repeat (rewrite ?orb_true_iff, ?andb_true_iff, ?N.leb_le, ?N.eqb_eq in H);
    lia.
Qed.

Lemma span_app p a b :
  forallb p a = true →
  match b with c :: _ => p c = false | [] => True end →
  span p (a ++ b) = (a, b).
Proof.
  intros Ha Hb. induction a as [|x a IH]; simpl in *.
  - destruct b as [|c b]; simpl; [done|]. by rewrite Hb.
  - apply andb_true_iff in Ha as [-> Ha]. by rewrite IH.
Qed.

Lemma strip_prefix_app p s : strip_prefix p (p ++ s) = Some s.
Proof. induction p as [|a p IH]; simpl; [done|]. by rewrite N.eqb_refl. Qed.

Lemma match_token_placeholder ws1 k ws2 rest :
  forallb is_space ws1 = true → is_key k = true → forallb is_space ws2 = true →
  match_token (placeholder ws1 k ws2 ++ rest) = Some (k, rest).
Proof.
  intros H1 Hk H2. apply andb_true_iff in Hk as [Hne Hw].
  destruct k as [|c k]; [done|]. clear Hne.
  pose proof Hw as Hw'. simpl in Hw'. apply andb_true_iff in Hw' as [Hc _].
  unfold match_token, placeholder.
  rewrite <- !app_assoc, strip_prefix_app.
  rewrite (span_app is_space ws1); [|done|by apply word_not_space].
  assert (Hbrace : ∀ t : str, match ws2 ++ lit "}}" ++ t with
                              | x :: _ => is_word x = false | [] => True end).
  { intros t. destruct ws2 as [|x ws2]; simpl in *; [done|].
    apply andb_true_iff in H2 as [Hx _].
    destruct (is_word x) eqn:E; [|done]. apply word_not_space in E. congruence. }
  rewrite (span_app is_word (c :: k)); [|done|apply Hbrace].
  rewrite (span_app is_space ws2); [|done|done].
  by rewrite strip_prefix_app.
Qed.

(** Each placeholder is replaced by what the replacer gives for its key,
    and rendering goes on with the text after it. *)
Lemma renderTemplate_placeholder context ws1 k ws2 rest :
  forallb is_space ws1 = true → is_key k = true → forallb is_space ws2 = true →
  renderTemplate context (placeholder ws1 k ws2 ++ rest)
  = replacer context k ++ renderTemplate context rest.
Proof.
  intros. apply renderTemplate_token. by apply match_token_placeholder.
Qed.

Lemma replacer_own context k s :
  context !! k = Some (VStr s) → replacer context k = s.
Proof. unfold replacer, js_get. by intros ->. Qed.

(** A key that is neither bound nor a member name of [Object.prototype]
    is replaced by the empty string. *)
Lemma replacer_absent context k :
  context !! k = None → object_prototype k = None → replacer context k = [].
Proof. unfold replacer, js_get. by intros -> ->. Qed.

(** ** C5: substituted values are not scanned again *)

Lemma match_token_needs_braces c s :
  (c =? 123) && match s with c' :: _ => c' =? 123 | [] => false end = false →
  match_token (c :: s) = None.
Proof.
  intros H. unfold match_token.
  change (lit "{{") with [123; 123]. cbn [strip_prefix].
  rewrite (N.eqb_sym 123 c).
  destruct (c =? 123); [|done].
  destruct s as [|c' s]; [done|]. cbn [strip_prefix].
  rewrite (N.eqb_sym 123 c'). simpl in H. by rewrite H.
Qed.

(** Text without [{] is copied, and rendering goes on behind it. *)
Lemma renderTemplate_plain_prefix context t s :
  forallb (λ c, negb (c =? 123)) t = true →
  renderTemplate context (t ++ s) = t ++ renderTemplate context s.
Proof.
  induction t as [|c t IH]; [done|]. simpl.
  intros [Hc Ht]%andb_true_iff. apply negb_true_iff in Hc.
  rewrite renderTemplate_char.
  - by rewrite IH.
  - apply match_token_needs_braces. by rewrite Hc.
Qed.

Lemma tokens_nil : tokens [] = [].
Proof. by simp tokens. Qed.

Lemma tokens_token s k rest :
  match_token s = Some (k, rest) → tokens s = Token k :: tokens rest.
Proof.
  intros Hm. destruct s as [|c s]; [done|].
  simp tokens.
  destruct (inspect (match_token (c :: s))) as [[[k' rest']|] e]; simpl.
  - rewrite Hm in e. by injection e as <- <-.
  - congruence.
Qed.

Lemma tokens_char c s :
  match_token (c :: s) = None → tokens (c :: s) = Text c :: tokens s.
Proof.
  intros Hm. simp tokens.
  destruct (inspect (match_token (c :: s))) as [[[k' rest']|] e]; simpl.
  - congruence.
  - done.
Qed.

(** The output is the template's own sequence of text and tokens with each
    token replaced: what the context binds decides the replacements and
    has no part in finding the tokens. *)
Lemma renderTemplate_tokens context template :
  renderTemplate context template = substitute context (tokens template).
Proof.
  funelim (tokens template).
  - by rewrite renderTemplate_nil.
  - rewrite (renderTemplate_token _ _ k rest) by done.
    unfold substitute. cbn [flat_map]. by f_equal.
  - rewrite renderTemplate_char by done.
    unfold substitute. cbn [flat_map app]. by f_equal.
Qed.

(** C5. A value put in place of a placeholder is copied as it is and the
    scan resumes behind the placeholder, so the value is never searched for
    placeholders. With [A] bound to the text [{{B}}], whatever else the
    context binds, the template [{{A}}] renders to the literal [{{B}}], also
    with text around the placeholder. In general, after any text without a
    brace, a placeholder whose key is bound to [v] gives [v] itself,
    whatever [v] contains, followed by the rendering of the rest; and for
    every template the output consists of the template's text and, for
    each of the template's own placeholders, the replacer's text: there is
    one pass. *)
Theorem renderTemplate_no_recursive_expansion (context : gmap str jsval) :
  (context !! lit "A" = Some (VStr (lit "{{B}}")) →
   renderTemplate context (lit "{{A}}") = lit "{{B}}"
   ∧ renderTemplate context (lit "x{{A}}y{{ A }}") = lit "x{{B}}y{{B}}")
  ∧ (∀ pre k v ws1 ws2 rest,
       forallb (λ c, negb (c =? 123)) pre = true →
       is_key k = true → context !! k = Some (VStr v) →
       forallb is_space ws1 = true → forallb is_space ws2 = true →
       renderTemplate context (pre ++ placeholder ws1 k ws2 ++ rest)
       = pre ++ v ++ renderTemplate context rest)
  ∧ (∀ template,
       renderTemplate context template = substitute context (tokens template)).
Proof.
  assert (G : ∀ pre k v ws1 ws2 rest,
       forallb (λ c, negb (c =? 123)) pre = true →
       is_key k = true → context !! k = Some (VStr v) →
       forallb is_space ws1 = true → forallb is_space ws2 = true →
       renderTemplate context (pre ++ placeholder ws1 k ws2 ++ rest)
       = pre ++ v ++ renderTemplate context rest).
  { intros pre k v ws1 ws2 rest Hpre Hk Hv H1 H2.
    rewrite renderTemplate_plain_prefix by done.
    rewrite renderTemplate_placeholder by done. by rewrite (replacer_own _ _ v). }
  split; [|split; [exact G|apply renderTemplate_tokens]].
  intros HA. split.
  - change (lit "{{A}}") with ([] ++ placeholder [] (lit "A") [] ++ []).
    rewrite (G [] (lit "A") (lit "{{B}}")) by done.
    by rewrite renderTemplate_nil, app_nil_r.
  - change (lit "x{{A}}y{{ A }}")
      with (lit "x" ++ placeholder [] (lit "A") []
            ++ (lit "y" ++ placeholder (lit " ") (lit "A") (lit " ") ++ [])).
    rewrite (G (lit "x") (lit "A") (lit "{{B}}")) by done.
    rewrite (G (lit "y") (lit "A") (lit "{{B}}")) by done.
    by rewrite renderTemplate_nil.
Qed.

Lemma renderTemplate_no_recursive_expansion_witness :
  let context : gmap str jsval :=
    <[lit "B" := VStr (lit "value of B")]> {[ lit "A" := VStr (lit "{{B}}") ]} in
  renderTemplate context (lit "{{A}}") = lit "{{B}}"
  ∧ renderTemplate context (lit "x{{A}}y{{ A }}") = lit "x{{B}}y{{B}}"
  ∧ renderTemplate context (lit "see {{ A }}, then {{B}}")
    = lit "see {{B}}, then value of B".
Proof.
  intros context.
  destruct (renderTemplate_no_recursive_expansion context) as (Hex & Hone & _).
  destruct Hex as [H1 H2]; [vm_compute; reflexivity|].
  split; [exact H1|]. split; [exact H2|].
  etrans.
  - apply (Hone (lit "see ") (lit "A") (lit "{{B}}") (lit " ") (lit " ")
             (lit ", then {{B}}")); vm_compute; reflexivity.
  - vm_compute. reflexivity.
Defined.

(** ** C4: keys the context does not bind *)

(** C4. The context that [generateProject] builds for the example recipe
    has no entry [toString], yet the placeholder [{{toString}}] does not
    render to the empty string: the property read reaches
    [Object.prototype.toString], and the text of that function is what
    ends up in the output. *)
Theorem renderTemplate_inherited_property :
  let context := render_context tag_recipe (lit "proj") ∅ in
  context !! lit "toString" = None
  ∧ renderTemplate context (lit "{{toString}}")
    = lit "function toString() { [native code] }"
  ∧ renderTemplate context (lit "{{toString}}") ≠ [].
Proof. vm_compute. repeat split; discriminate. Qed.

(** ** C7: the generation index *)

(** C7. For an index file that holds the array [existing], the file after
    [appendGeneratedRecord] holds the new record first, followed by the
    records of [existing], unchanged and in their order, and that is what
    the next read gives; the result has at most 100 entries, and records
    are left out, from the old end only, when that bound is reached. An
    index that cannot be read, or that holds something other than an array,
    counts as empty. *)
Theorem appendGeneratedRecord_newest_first (record : GeneratedRecord) :
  (∀ existing, ∃ kept dropped,
      existing = kept ++ dropped
      ∧ appendGeneratedRecord record (IndexArray existing)
        = IndexArray (record :: kept)
      ∧ readGeneratedIndex (appendGeneratedRecord record (IndexArray existing))
        = record :: kept
      ∧ (length (record :: kept) ≤ 100)%nat
      ∧ (dropped = [] ∨ length (record :: kept) = 100%nat))
  ∧ (∀ r1 r2, appendGeneratedRecord record (IndexArray [r1; r2])
              = IndexArray [record; r1; r2])
  ∧ appendGeneratedRecord record Unreadable = IndexArray [record]
  ∧ appendGeneratedRecord record NotAnArray = IndexArray [record].
Proof.
  split; [|by repeat split].
  intros existing.
  exists (take 99 existing), (drop 99 existing).
  split; [by rewrite take_drop|].
  split; [reflexivity|]. split; [reflexivity|].
  simpl. rewrite length_take.
  split; [lia|].
  destruct (decide (length existing ≤ 99)%nat) as [Hle|Hgt].
  - left. by apply drop_ge.
  - right. lia.
Qed.

(** An index that is full loses its oldest record, and only that one. *)
Example appendGeneratedRecord_full :
  let entry (name : str) :=
    {| g_projectName := name; g_recipeId := lit "r";
       g_createdAt := lit "t"; g_path := lit "/root/gen/" ++ name;
       g_variables := ∅ |} in
  let existing :=
    entry (lit "newest") :: replicate 98 (entry (lit "middle"))
    ++ [entry (lit "oldest")] in
  length existing = 100%nat
  ∧ appendGeneratedRecord (entry (lit "new")) (IndexArray existing)
    = IndexArray (entry (lit "new") :: entry (lit "newest")
                  :: replicate 98 (entry (lit "middle"))).
Proof. split; reflexivity. Qed.

(** ** C1: the path sandbox *)

Lemma safeJoin_string_prefix cwd base target p :
  safeJoin cwd base target = Return p → startsWith p base = true.
Proof.
  unfold safeJoin.
  destruct (startsWith (path_resolve cwd [base; target]) base) eqn:E; simpl.
  - by intros [= <-].
  - done.
Qed.

Example safeJoin_rejects_dotdot cwd :
  safeJoin cwd (lit "/root/gen/proj") (lit "../../etc/passwd")
  = Throw (lit "Invalid file path: ../../etc/passwd").
Proof. reflexivity. Qed.

Example safeJoin_accepts_seed cwd :
  safeJoin cwd (lit "/root/gen/proj") (lit "seed/a.sql")
  = Return (lit "/root/gen/proj/seed/a.sql").
Proof. reflexivity. Qed.

Example safeJoin_rejects_absolute cwd :
  safeJoin cwd (lit "/root/gen/proj") (lit "/etc/passwd")
  = Throw (lit "Invalid file path: /etc/passwd").
Proof. reflexivity. Qed.

(** C1. The sandbox compares strings, not path segments: for the base
    [/root/gen/proj] the target [../proj-evil/x] resolves to
    [/root/gen/proj-evil/x], a sibling directory whose name merely begins
    with the base's, and [safeJoin] returns it although it does not lie
    within the base. Through an extra file whose path is
    [../{{projectName}}-evil/x], [generateProject] writes there. *)
Theorem safeJoin_sibling_prefix_escapes (cwd : str) :
  safeJoin cwd (lit "/root/gen/proj") (lit "../proj-evil/x")
  = Return (lit "/root/gen/proj-evil/x")
  ∧ within (lit "/root/gen/proj") (lit "/root/gen/proj-evil/x") = false
  ∧ WriteFile (lit "/root/gen/proj-evil/x") (lit "data")
    ∈ (generateProject cwd (lit "/root/gen") escaping_recipe (lit "proj") ∅).1.
Proof.
  split; [reflexivity|]. split; [reflexivity|].
  vm_compute. repeat constructor.
Qed.

(** ** Objects built by repeated assignment *)

Section fold_set.
Context {A : Type} (kf : A → str) (vf : A → jsval).
Variable set : gmap str jsval → str → jsval → gmap str jsval.
Variable good : str → Prop.
Hypothesis set_eq : ∀ o k v, good k → set o k v !! k = Some v.
Hypothesis set_ne : ∀ o k k' v, k ≠ k' → set o k v !! k' = o !! k'.

Lemma fold_set_notin l o k :
  k ∉ map kf l →
  fold_left (λ o a, set o (kf a) (vf a)) l o !! k = o !! k.
Proof using set_ne.
  revert o. induction l as [|a l IH]; intros o Hk; simpl; [done|].
  apply not_elem_of_cons in Hk as [Hne Hk].
  rewrite IH by done. by apply set_ne.
Qed.

(** The last assignment to a key is the one that counts. *)
Lemma fold_set_last pre a post o :
  kf a ∉ map kf post → good (kf a) →
  fold_left (λ o a, set o (kf a) (vf a)) (pre ++ a :: post) o !! kf a
  = Some (vf a).
Proof using set_eq set_ne.
  intros Hpost Hgood. rewrite fold_left_app. simpl.
  rewrite (fold_set_notin post) by done. by apply set_eq.
Qed.
End fold_set.

Lemma js_set_eq o k v : k ≠ lit "__proto__" → js_set o k v !! k = Some v.
Proof. intros Hk. unfold js_set. rewrite decide_False by done. apply lookup_insert_eq. Qed.

Lemma js_set_ne o k k' v : k ≠ k' → js_set o k v !! k' = o !! k'.
Proof. intros Hk. unfold js_set. case_decide; [done|]. by apply lookup_insert_ne. Qed.

(** ** Keys that match the schema's pattern *)

Lemma key_pattern_upper k :
  key_pattern k = true → ∃ c rest, k = c :: rest ∧ is_upper c = true.
Proof.
  destruct k as [|c rest]; simpl; [done|].
  intros [H _]%andb_true_iff. eauto.
Qed.

(** No member of [Object.prototype] begins with a capital letter, so a read
    of a schema-valid key finds an own property or nothing. *)
Lemma key_pattern_not_inherited k :
  key_pattern k = true → object_prototype k = None.
Proof.
  intros (c & rest & -> & Hc)%key_pattern_upper.
  assert (Hhd : ∀ name : string, c :: rest = lit name →
                  is_upper (hd 0 (lit name)) = true).
  { intros name <-. exact Hc. }
  unfold object_prototype.
  destruct (decide (c :: rest = lit "constructor")) as [E|_];
    [by apply Hhd in E|].
  destruct (decide (c :: rest = lit "__proto__")) as [E|_];
    [by apply Hhd in E|].
  destruct (decide (c :: rest ∈ object_prototype_methods)) as [E|_]; [|done].
  unfold object_prototype_methods in E. simpl map in E.
  repeat (apply elem_of_cons in E as [E|E]; [by apply Hhd in E|]).
  by apply elem_of_nil in E.
Qed.

Lemma js_get_key_pattern o k : key_pattern k = true → js_get o k = o !! k.
Proof.
  intros Hk. unfold js_get. destruct (o !! k); [done|].
  by apply key_pattern_not_inherited.
Qed.

Lemma key_pattern_not_proto k : key_pattern k = true → k ≠ lit "__proto__".
Proof. by intros (c & rest & -> & Hc)%key_pattern_upper [= -> _]. Qed.

Lemma key_pattern_not_projectName k :
  key_pattern k = true → k ≠ lit "projectName".
Proof. by intros (c & rest & -> & Hc)%key_pattern_upper [= -> _]. Qed.

Lemma bound_value_key_pattern vars v :
  key_pattern (v_key v) = true →
  bound_value vars v
  = match vars !! v_key v with Some x => x | None => VStr (v_default v) end.
Proof. intros Hk. unfold bound_value. by rewrite js_get_key_pattern. Qed.

Lemma bound_value_agree vars vars' v :
  vars !! v_key v = vars' !! v_key v → bound_value vars v = bound_value vars' v.
Proof. intros H. unfold bound_value, js_get. by rewrite H. Qed.

(** ** The render context *)

Lemma fold_left_over_map {A B C} (f : C → B → C) (g : A → B) l o :
  fold_left f (map g l) o = fold_left (λ o a, f o (g a)) l o.
Proof. revert o. induction l as [|a l IH]; intros o; simpl; [done|]. apply IH. Qed.

Lemma Object_fromEntries_last {A} (kf : A → str) (vf : A → jsval) pre a post :
  kf a ∉ map kf post →
  Object_fromEntries (map (λ x, (kf x, vf x)) (pre ++ a :: post)) !! kf a
  = Some (vf a).
Proof.
  intros Hpost. unfold Object_fromEntries. rewrite fold_left_over_map. simpl.
  apply (fold_set_last kf vf (λ o k v, <[k := v]> o) (λ _, True)); try done.
  - intros. apply lookup_insert_eq.
  - intros. by apply lookup_insert_ne.
Qed.

Lemma Object_fromEntries_notin {A} (kf : A → str) (vf : A → jsval) l k :
  k ∉ map kf l →
  Object_fromEntries (map (λ x, (kf x, vf x)) l) !! k = None.
Proof.
  intros Hk. unfold Object_fromEntries. rewrite fold_left_over_map. simpl.
  rewrite (fold_set_notin kf vf (λ o k v, <[k := v]> o)); try done.
  intros. by apply lookup_insert_ne.
Qed.

Lemma Object_fromEntries_dom (entries : list (str * jsval)) :
  dom (Object_fromEntries entries) = list_to_set (map fst entries).
Proof.
  unfold Object_fromEntries.
  assert (G : ∀ o : gmap str jsval,
            dom (fold_left (λ o e, <[e.1 := e.2]> o) entries o)
            = list_to_set (map fst entries) ∪ dom o).
  { induction entries as [|e l IH]; intros o; simpl.
    - by rewrite (left_id_L ∅ (∪)).
    - rewrite IH, dom_insert_L.
      by rewrite (assoc_L (∪)), (comm_L (∪) _ {[e.1]}). }
  by rewrite G, dom_empty_L, (right_id_L ∅ (∪)).
Qed.

Lemma forallb_elem {A} (p : A → bool) (l : list A) x :
  forallb p l = true → x ∈ l → p x = true.
Proof.
  intros H Hx. apply list_elem_of_In in Hx.
  by apply (proj1 (forallb_forall p l) H).
Qed.

(** The last declaration of a key decides what the context binds it to. *)
Lemma render_context_last r pn overrides pre post v :
  variables r = pre ++ v :: post →
  v_key v ∉ map v_key post →
  render_context r pn overrides !! v_key v = Some (bound_value overrides v).
Proof.
  intros Hvars Hpost. unfold render_context. rewrite Hvars.
  apply lookup_union_Some_l.
  by rewrite (Object_fromEntries_last v_key (bound_value overrides)).
Qed.

(** ** C2: what the context binds a variable to *)

(** C2, counterexample. For the variable [TAG] with default [latest]
    and the override [{TAG: ""}], the context binds [TAG] to the empty
    string, where the claim asks for the default. *)
Lemma render_context_empty_override :
  let v := example_variable "TAG" "latest" false None in
  let overrides : gmap str jsval := {[ lit "TAG" := VStr [] ]} in
  render_context tag_recipe (lit "proj") overrides !! v_key v = Some (VStr [])
  ∧ spec_effective_value overrides v = VStr (lit "latest")
  ∧ render_context tag_recipe (lit "proj") overrides !! v_key v
    ≠ Some (spec_effective_value overrides v).
Proof. vm_compute. repeat split. discriminate. Qed.

(** C2, as amended. For a variable whose key matches the schema's pattern,
    the context binds the key to the override whenever the override mapping
    has an entry for it, the empty string included, and to the declared
    default only when it has none; where a key is declared more than once,
    this is the default of its last declaration. *)
Theorem render_context_binds (r : Recipe) (pn : str) (overrides : gmap str jsval)
    (pre post : list RecipeVariable) (v : RecipeVariable) :
  variables r = pre ++ v :: post →
  v_key v ∉ map v_key post →
  key_pattern (v_key v) = true →
  render_context r pn overrides !! v_key v
  = Some (match overrides !! v_key v with
          | Some x => x
          | None => VStr (v_default v)
          end).
Proof.
  intros Hvars Hpost Hk.
  rewrite (render_context_last r pn overrides pre post v) by done.
  by rewrite bound_value_key_pattern.
Qed.

Lemma render_context_binds_witness :
  render_context tag_recipe (lit "proj") {[ lit "TAG" := VStr [] ]} !! lit "TAG"
  = Some (VStr [])
  ∧ render_context tag_recipe (lit "proj") ∅ !! lit "TAG"
    = Some (VStr (lit "latest")).
Proof.
  split.
  - etrans.
    + apply (render_context_binds tag_recipe (lit "proj")
               {[ lit "TAG" := VStr [] ]}
               [] [] (example_variable "TAG" "latest" false None)).
      * reflexivity.
      * vm_compute. apply not_elem_of_nil.
      * reflexivity.
    + vm_compute. reflexivity.
  - etrans.
    + apply (render_context_binds tag_recipe (lit "proj") ∅
               [] [] (example_variable "TAG" "latest" false None)).
      * reflexivity.
      * vm_compute. apply not_elem_of_nil.
      * reflexivity.
    + vm_compute. reflexivity.
Defined.

(** ** C3: required variables without a value *)

(** C3, counterexample. A required variable [K] with the non-empty
    default [d] and the override [{K: ""}] is reported missing, although
    its default is non-empty. *)
Lemma getMissingRequired_empty_override :
  let r := example_recipe [example_variable "K" "d" true None] "x" None None in
  let overrides : gmap str jsval := {[ lit "K" := VStr [] ]} in
  getMissingRequired r overrides = [lit "K"]
  ∧ spec_missingRequired r overrides = []
  ∧ getMissingRequired r overrides ≠ spec_missingRequired r overrides.
Proof. vm_compute. repeat split. discriminate. Qed.

Lemma falsy_empty x : falsy x = true ↔ x = VStr [].
Proof. destruct x as [[|c s]| |]; simpl; split; congruence. Qed.

Lemma missing_iff overrides v :
  key_pattern (v_key v) = true →
  v_required v && falsy (bound_value overrides v) = true
  ↔ v_required v = true
    ∧ match overrides !! v_key v with
      | Some x => x
      | None => VStr (v_default v)
      end = VStr [].
Proof.
  intros Hk. rewrite andb_true_iff, falsy_empty.
  by rewrite bound_value_key_pattern.
Qed.

(** C3, as amended. For a recipe whose variable keys match the schema's
    pattern, [getMissingRequired] returns, in declaration order, the keys
    of the required variables whose resolved value is the empty string,
    the resolved value being the override whenever the override mapping has
    an entry for the key (an empty one included) and the default otherwise.
    For the recipe with the one required variable [DB_PASS] and default
    [""] this is [[]] under the override [{DB_PASS: "x"}] and [["DB_PASS"]]
    under no override. *)
Theorem getMissingRequired_resolved (r : Recipe) (overrides : gmap str jsval) :
  RecipeVariableSchema_keys r = true →
  getMissingRequired r overrides
  = map v_key
      (filter (λ v, v_required v = true
                    ∧ match overrides !! v_key v with
                      | Some x => x
                      | None => VStr (v_default v)
                      end = VStr [])
              (variables r))
  ∧ getMissingRequired dbpass_recipe {[ lit "DB_PASS" := VStr (lit "x") ]} = []
  ∧ getMissingRequired dbpass_recipe ∅ = [lit "DB_PASS"].
Proof.
  intros Hkeys. split; [|by vm_compute].
  unfold getMissingRequired, RecipeVariableSchema_keys in *. f_equal.
  induction (variables r) as [|v l IH]; [done|].
  simpl in Hkeys. apply andb_true_iff in Hkeys as [Hv Hl].
  rewrite !filter_cons, IH by done.
  pose proof (missing_iff overrides v Hv) as Hiff.
  repeat case_decide; tauto.
Qed.

Lemma getMissingRequired_resolved_witness :
  getMissingRequired
    (example_recipe [example_variable "A" "" true None;
                     example_variable "B" "b" true None;
                     example_variable "C" "" false None;
                     example_variable "D" "" true None] "x" None None)
    {[ lit "B" := VStr []; lit "D" := VStr (lit "d") ]}
  = [lit "A"; lit "B"].
Proof.
  etrans.
  - apply (getMissingRequired_resolved
             (example_recipe [example_variable "A" "" true None;
                              example_variable "B" "b" true None;
                              example_variable "C" "" false None;
                              example_variable "D" "" true None] "x" None None)
             {[ lit "B" := VStr []; lit "D" := VStr (lit "d") ]}).
    reflexivity.
  - vm_compute. reflexivity.
Defined.

(** ** C6: redaction *)

Lemma fold_left_ext_in {A B} (f g : B → A → B) l o :
  (∀ a o, a ∈ l → f o a = g o a) → fold_left f l o = fold_left g l o.
Proof.
  revert o. induction l as [|a l IH]; intros o H; simpl; [done|].
  rewrite H by apply list_elem_of_here.
  apply IH. intros. apply H. by apply list_elem_of_further.
Qed.

Lemma redactVariables_fold r vars :
  redactVariables r vars
  = fold_left (λ o v, js_set o (v_key v) (redacted_value vars v)) (variables r) ∅.
Proof.
  unfold redactVariables. apply fold_left_ext_in.
  intros v o _. unfold redacted_value. by destruct (is_secret v).
Qed.

Lemma is_secret_flag v : is_secret v = true ↔ v_secret v = Some true.
Proof. unfold is_secret. destruct (v_secret v) as [[]|]; split; congruence. Qed.

Lemma is_secret_no_flag v : is_secret v = false ↔ v_secret v ≠ Some true.
Proof. unfold is_secret. destruct (v_secret v) as [[]|]; split; congruence. Qed.

(** C6. Take a recipe as the specification has it: the variable keys match
    the schema's pattern and are pairwise distinct. For two override
    mappings that agree on every variable whose [secret] flag is not set to
    true, [redactVariables] gives the same result; it binds the key of
    every variable flagged secret to ["***"], whatever the override or the
    default, and the key of every other variable to the value that the
    render context of [generateProject] binds it to, which is the override
    where the mapping has one and the default otherwise. *)
Theorem redactVariables_hides_secrets (r : Recipe)
    (overrides overrides' : gmap str jsval) :
  RecipeVariableSchema_keys r = true →
  NoDup (map v_key (variables r)) →
  (∀ v, v ∈ variables r → v_secret v ≠ Some true →
        overrides !! v_key v = overrides' !! v_key v) →
  redactVariables r overrides = redactVariables r overrides'
  ∧ (∀ v, v ∈ variables r → v_secret v = Some true →
          redactVariables r overrides !! v_key v = Some (VStr (lit "***"))
          ∧ redactVariables r overrides' !! v_key v = Some (VStr (lit "***")))
  ∧ (∀ v pn, v ∈ variables r → v_secret v ≠ Some true →
          redactVariables r overrides !! v_key v
          = render_context r pn overrides !! v_key v
          ∧ redactVariables r overrides !! v_key v
            = Some (match overrides !! v_key v with
                    | Some x => x
                    | None => VStr (v_default v)
                    end)).
Proof.
  intros Hkeys Hnodup Hagree.
  assert (Hlookup : ∀ vars v, v ∈ variables r →
            redactVariables r vars !! v_key v
            = Some (redacted_value vars v)
            ∧ ∀ pn, render_context r pn vars !! v_key v
                    = Some (bound_value vars v)).
  { intros vars v Hv.
    pose proof (forallb_elem _ _ _ Hkeys Hv) as Hk. simpl in Hk.
    apply list_elem_of_split in Hv as (pre & post & Hsplit).
    assert (Hpost : v_key v ∉ map v_key post).
    { rewrite Hsplit, map_app in Hnodup. simpl in Hnodup.
      apply NoDup_app in Hnodup as (_ & _ & Hnodup).
      by apply NoDup_cons in Hnodup as [? _]. }
    split.
    - rewrite redactVariables_fold, Hsplit.
      apply (fold_set_last v_key (redacted_value vars) js_set
               (λ k, k ≠ lit "__proto__")); try done.
      + apply js_set_eq.
      + apply js_set_ne.
      + by apply key_pattern_not_proto.
    - intros pn. by apply (render_context_last r pn vars pre post v). }
  split; [|split].
  - rewrite !redactVariables_fold. apply fold_left_ext_in.
    intros v o Hv. f_equal. unfold redacted_value.
    destruct (is_secret v) eqn:Hs; [done|].
    apply bound_value_agree. apply Hagree; [done|]. by apply is_secret_no_flag.
  - intros v Hv Hs%is_secret_flag.
    destruct (Hlookup overrides v Hv) as [-> _].
    destruct (Hlookup overrides' v Hv) as [-> _].
    unfold redacted_value. by rewrite Hs.
  - intros v pn Hv Hs%is_secret_no_flag.
    destruct (Hlookup overrides v Hv) as [-> Hctx].
    pose proof (forallb_elem _ _ _ Hkeys Hv) as Hk. simpl in Hk.
    unfold redacted_value. rewrite Hs, Hctx.
    by rewrite bound_value_key_pattern.
Qed.

Lemma redactVariables_hides_secrets_witness :
  let r := example_recipe [example_variable "DB_PASS" "" true (Some true);
                           example_variable "TAG" "latest" false None]
                          "x" None None in
  redactVariables r {[ lit "DB_PASS" := VStr (lit "s3cr3t");
                       lit "TAG" := VStr (lit "1.2") ]}
  = redactVariables r {[ lit "DB_PASS" := VStr (lit "hunter2");
                         lit "TAG" := VStr (lit "1.2") ]}
  ∧ redactVariables r {[ lit "DB_PASS" := VStr (lit "s3cr3t");
                         lit "TAG" := VStr (lit "1.2") ]} !! lit "DB_PASS"
    = Some (VStr (lit "***"))
  ∧ redactVariables r {[ lit "DB_PASS" := VStr (lit "s3cr3t");
                         lit "TAG" := VStr (lit "1.2") ]} !! lit "TAG"
    = Some (VStr (lit "1.2")).
Proof.
  intros r.
  destruct (redactVariables_hides_secrets r
              {[ lit "DB_PASS" := VStr (lit "s3cr3t");
                 lit "TAG" := VStr (lit "1.2") ]}
              {[ lit "DB_PASS" := VStr (lit "hunter2");
                 lit "TAG" := VStr (lit "1.2") ]}) as (Heq & Hsecret & Hclear).
  - reflexivity.
  - apply (bool_decide_unpack _). vm_compute. exact I.
  - intros v Hv Hs.
    apply elem_of_cons in Hv as [->|Hv]; [by destruct Hs|].
    apply elem_of_cons in Hv as [->|Hv]; [vm_compute; reflexivity|].
    by apply elem_of_nil in Hv.
  - split; [exact Heq|]. split.
    + apply (Hsecret (example_variable "DB_PASS" "" true (Some true))).
      * apply list_elem_of_here.
      * reflexivity.
    + etrans.
      * apply (Hclear (example_variable "TAG" "latest" false None) (lit "proj")).
        -- apply list_elem_of_further, list_elem_of_here.
        -- discriminate.
      * vm_compute. reflexivity.
Defined.

(** The schema does not ask for distinct keys, and [redactVariables] assigns
    once per declaration, the last one deciding: were [DB_PASS] declared a
    second time without the flag, the value given for it would be stored as
    it is. *)
Example redactVariables_duplicate_key :
  let declared := [example_variable "DB_PASS" "" true (Some true);
                   example_variable "DB_PASS" "" true None] in
  let r := example_recipe declared "x" None None in
  let overrides : gmap str jsval := {[ lit "DB_PASS" := VStr (lit "s3cr3t") ]} in
  RecipeVariableSchema_keys r = true
  ∧ (v_secret <$> declared !! 0%nat) = Some (Some true)
  ∧ redactVariables r overrides !! lit "DB_PASS" = Some (VStr (lit "s3cr3t"))
  ∧ redactVariables r overrides !! lit "DB_PASS" ≠ Some (VStr (lit "***")).
Proof. vm_compute. repeat split. discriminate. Qed.

(** ** C10: the keys of the render context *)

Lemma render_context_agree r pn overrides overrides' :
  (∀ v, v ∈ variables r → overrides' !! v_key v = overrides !! v_key v) →
  render_context r pn overrides' = render_context r pn overrides.
Proof.
  intros Hagree. unfold render_context. f_equal. f_equal.
  induction (variables r) as [|v l IH]; [done|]. simpl. f_equal.
  - f_equal. apply bound_value_agree, Hagree, list_elem_of_here.
  - apply IH. intros. by apply Hagree, list_elem_of_further.
Qed.

(** C10. For a recipe whose variable keys match the schema's pattern, the
    own keys of the render context are [projectName] and the declared
    variable keys, nothing else; [projectName] is bound to the project name
    that was passed, whatever the recipe declares; and override mappings
    that agree on the declared keys give the same context and the same run
    of [generateProject], files written and result returned. *)
Theorem render_context_keys (r : Recipe) (pn : str) (overrides : gmap str jsval) :
  RecipeVariableSchema_keys r = true →
  dom (render_context r pn overrides)
  = {[ lit "projectName" ]} ∪ list_to_set (map v_key (variables r))
  ∧ render_context r pn overrides !! lit "projectName" = Some (VStr pn)
  ∧ (∀ overrides',
       (∀ v, v ∈ variables r → overrides' !! v_key v = overrides !! v_key v) →
       render_context r pn overrides' = render_context r pn overrides
       ∧ ∀ cwd generatedDir,
           generateProject cwd generatedDir r pn overrides'
           = generateProject cwd generatedDir r pn overrides).
Proof.
  intros Hkeys. split; [|split].
  - unfold render_context.
    rewrite dom_union_L, Object_fromEntries_dom, dom_singleton_L.
    rewrite map_map. simpl. apply (comm_L (∪)).
  - unfold render_context. apply lookup_union_Some_raw. right. split.
    + apply (Object_fromEntries_notin v_key (bound_value overrides)).
      intros (v & Hv & Hin)%list_elem_of_In%in_map_iff.
      apply list_elem_of_In in Hin.
      pose proof (forallb_elem _ _ _ Hkeys Hin) as Hk. simpl in Hk. rewrite Hv in Hk.
      by apply key_pattern_not_projectName in Hk.
    + apply lookup_singleton_eq.
  - intros overrides' Hagree.
    pose proof (render_context_agree r pn overrides overrides' Hagree) as Hctx.
    split; [done|]. intros cwd generatedDir.
    unfold generateProject. by rewrite Hctx.
Qed.

Lemma render_context_keys_witness :
  dom (render_context tag_recipe (lit "proj") {[ lit "OTHER" := VStr (lit "o") ]})
  = {[ lit "projectName" ]} ∪ {[ lit "TAG" ]}
  ∧ render_context tag_recipe (lit "proj") {[ lit "OTHER" := VStr (lit "o") ]}
    = render_context tag_recipe (lit "proj") ∅.
Proof.
  destruct (render_context_keys tag_recipe (lit "proj") ∅) as (_ & _ & Hsame);
    [reflexivity|].
  destruct (render_context_keys tag_recipe (lit "proj")
              {[ lit "OTHER" := VStr (lit "o") ]}) as (Hdom & _ & _);
    [reflexivity|].
  split.
  - rewrite Hdom. simpl. by rewrite (right_id_L ∅ (∪)).
  - apply Hsame. intros v Hv.
    apply elem_of_cons in Hv as [->|Hv]; [reflexivity|].
    by apply elem_of_nil in Hv.
Defined.

(** ** Normalised paths *)

Lemma split_slash_nonempty s : split_slash s ≠ [].
Proof.
  destruct s as [|c s]; simpl; [done|].
  destruct (c =? slash); [done|]. by destruct (split_slash s).
Qed.

Lemma split_slash_app s t :
  split_slash (s ++ slash :: t) = split_slash s ++ split_slash t.
Proof.
  induction s as [|c s IH]; simpl.
  - done.
  - destruct (c =? slash); [by rewrite IH|].
    rewrite IH. pose proof (split_slash_nonempty s).
    by destruct (split_slash s).
Qed.

Lemma split_slash_free s :
  forallb (λ c, negb (c =? slash)) s = true → split_slash s = [s].
Proof.
  induction s as [|c s IH]; simpl; [done|].
  intros [Hc Hs]%andb_true_iff. apply negb_true_iff in Hc.
  by rewrite Hc, IH.
Qed.

Lemma clean_segment_free seg :
  clean_segment seg = true → forallb (λ c, negb (c =? slash)) seg = true.
Proof. unfold clean_segment. by intros [_ ?]%andb_true_iff. Qed.

Lemma clean_segment_push allow res seg :
  clean_segment seg = true → push_segment allow res seg = seg :: res.
Proof.
  unfold clean_segment, push_segment.
  rewrite !andb_true_iff, !negb_true_iff, !bool_decide_eq_false.
  intros [[[H1 H2] H3] _]. by rewrite !decide_False.
Qed.

Lemma fold_push_clean allow segs res :
  forallb clean_segment segs = true →
  fold_left (push_segment allow) segs res = rev segs ++ res.
Proof.
  revert res. induction segs as [|seg segs IH]; intros res; simpl; [done|].
  intros [Hseg Hsegs]%andb_true_iff.
  rewrite clean_segment_push, IH by done. by rewrite <- app_assoc.
Qed.

Lemma split_join_clean segs :
  forallb clean_segment segs = true →
  split_slash (join_slash segs) = match segs with [] => [[]] | _ => segs end.
Proof.
  induction segs as [|seg segs IH]; [done|].
  intros [Hseg Hsegs]%andb_true_iff.
  destruct segs as [|seg' segs].
  - simpl. by apply split_slash_free, clean_segment_free.
  - change (join_slash (seg :: seg' :: segs))
      with (seg ++ slash :: join_slash (seg' :: segs)).
    rewrite split_slash_app, IH by done.
    by rewrite split_slash_free by by apply clean_segment_free.
Qed.

(** Normalising an absolute path made of clean segments gives it back. *)
Lemma normalize_segments_abs_path segs :
  forallb clean_segment segs = true →
  normalize_segments false (abs_path segs) = segs.
Proof.
  intros Hsegs. unfold normalize_segments, abs_path.
  change (split_slash (slash :: join_slash segs))
    with ([] :: split_slash (join_slash segs)).
  rewrite split_join_clean by done.
  destruct segs as [|seg segs]; [done|].
  change (rev (fold_left (push_segment false) (seg :: segs) []) = seg :: segs).
  rewrite fold_push_clean by done. by rewrite app_nil_r, rev_involutive.
Qed.

Lemma normalize_segments_join segs name :
  forallb clean_segment segs = true → clean_segment name = true →
  normalize_segments false (abs_path segs ++ slash :: name) = segs ++ [name].
Proof.
  intros Hsegs Hname. unfold normalize_segments.
  rewrite split_slash_app.
  rewrite (split_slash_free name) by by apply clean_segment_free.
  unfold abs_path.
  change (split_slash (slash :: join_slash segs))
    with ([] :: split_slash (join_slash segs)).
  rewrite split_join_clean by done.
  destruct segs as [|seg segs].
  - simpl. by rewrite clean_segment_push.
  - change (rev (fold_left (push_segment false) ((seg :: segs) ++ [name]) [])
            = (seg :: segs) ++ [name]).
    rewrite fold_push_clean.
    + by rewrite app_nil_r, rev_involutive.
    + rewrite forallb_app, Hsegs. simpl. by rewrite Hname.
Qed.

Lemma join_slash_last_nonempty segs name :
  name ≠ [] → join_slash (segs ++ [name]) ≠ [].
Proof.
  intros Hname. induction segs as [|seg segs IH]; simpl; [done|].
  destruct (segs ++ [name]) eqn:E; [by destruct segs|].
  by destruct seg.
Qed.

Lemma ends_with_slash_clean x name :
  clean_segment name = true → ends_with_slash (x ++ name) = false.
Proof.
  intros Hname. pose proof (clean_segment_free _ Hname) as Hfree.
  unfold ends_with_slash. rewrite rev_app_distr.
  destruct (rev name) as [|c r] eqn:E.
  - apply (f_equal (@rev N)) in E. rewrite rev_involutive in E. by subst name.
  - simpl. apply negb_true_iff.
    apply (forallb_elem _ _ c Hfree).
    apply list_elem_of_In, in_rev. rewrite E. by left.
Qed.

Lemma clean_segment_nonempty name : clean_segment name = true → name ≠ [].
Proof. by destruct name. Qed.

(** Joining a clean segment onto a normalised absolute path appends it. *)
Lemma path_join_abs_path segs name :
  forallb clean_segment segs = true → clean_segment name = true →
  path_join [abs_path segs; name] = abs_path (segs ++ [name]).
Proof.
  intros Hsegs Hname. pose proof (clean_segment_nonempty _ Hname) as Hne.
  unfold path_join. rewrite !filter_cons, filter_nil.
  rewrite decide_True by done. rewrite decide_True by done.
  change (join_slash [abs_path segs; name]) with (abs_path segs ++ slash :: name).
  unfold path_normalize. rewrite decide_False by done.
  unfold normalizeString. rewrite normalize_segments_join by done.
  change (is_absolute (abs_path segs ++ slash :: name)) with true.
  rewrite decide_False by by apply join_slash_last_nonempty.
  assert (He : ends_with_slash (abs_path segs ++ slash :: name) = false).
  { replace (abs_path segs ++ slash :: name)
      with ((abs_path segs ++ [slash]) ++ name) by by rewrite <- app_assoc.
    by apply ends_with_slash_clean. }
  by rewrite He.
Qed.

(** The generation root is a normalised absolute path when the root
    directory is. *)
Lemma paths_generatedDir_abs_path segs :
  forallb clean_segment segs = true →
  paths_generatedDir (abs_path segs) = abs_path (segs ++ [lit "generated"])
  ∧ forallb clean_segment (segs ++ [lit "generated"]) = true.
Proof.
  intros Hsegs. split.
  - by apply path_join_abs_path.
  - by rewrite forallb_app, Hsegs.
Qed.

Lemma projectName_pattern_clean pn :
  projectName_pattern pn = true → clean_segment pn = true.
Proof.
  destruct pn as [|c rest]; [done|]. simpl.
  intros [Hc Hrest]%andb_true_iff.
  assert (Hchar : ∀ x, is_lower x || is_digit x || (x =? 45) = true →
                       x ≠ 46 ∧ x ≠ slash).
  { intros x. unfold is_lower, is_digit, slash.
    rewrite !orb_true_iff, !andb_true_iff, !N.leb_le, N.eqb_eq. lia. }
  assert (Hc' : c ≠ 46 ∧ c ≠ slash).
  { apply Hchar. by rewrite Hc. }
  unfold clean_segment. rewrite !andb_true_iff, !negb_true_iff.
  rewrite !bool_decide_eq_false. repeat split.
  - done.
  - intros [= -> _]. by destruct Hc'.
  - intros [= -> _]. by destruct Hc'.
  - simpl. apply andb_true_iff. split.
    + apply negb_true_iff, N.eqb_neq. by destruct Hc'.
    + apply forallb_forall. intros x Hx.
      apply negb_true_iff, N.eqb_neq.
      apply (Hchar x). by apply (proj1 (forallb_forall _ rest) Hrest).
Qed.

(** ** Runs of the generator *)

Lemma io_bind_do {B} op (k : unit → io B) :
  io_bind (io_do op) k = (op :: (k tt).1, (k tt).2).
Proof. unfold io_bind, io_do. by destruct (k tt). Qed.

Lemma io_bind_ext {A B} (m : io A) (k k' : A → io B) :
  (∀ a, k a = k' a) → io_bind m k = io_bind m k'.
Proof. intros H. destruct m as [ops [a|e]]; simpl; [by rewrite H|done]. Qed.

Lemma io_bind_assoc {A B C} (m : io A) (f : A → io B) (g : B → io C) :
  io_bind (io_bind m f) g = io_bind m (λ a, io_bind (f a) g).
Proof.
  destruct m as [ops [a|e]]; simpl; [|done].
  destruct (f a) as [ops' [b|e']]; simpl; [|done].
  destruct (g b) as [ops'' c]. by rewrite app_assoc.
Qed.

Lemma io_bind_ret {A B} (a : A) (k : A → io B) : io_bind (io_ret a) k = k a.
Proof. unfold io_bind, io_ret. by destruct (k a). Qed.

Lemma for_of_app {A} (l1 l2 : list A) body :
  for_of (l1 ++ l2) body = io_bind (for_of l1 body) (λ _, for_of l2 body).
Proof.
  induction l1 as [|x l1 IH].
  - symmetry. apply (io_bind_ret tt (λ _, for_of l2 body)).
  - change (io_bind (body x) (λ _, for_of (l1 ++ l2) body)
            = io_bind (io_bind (body x) (λ _, for_of l1 body))
                      (λ _, for_of l2 body)).
    rewrite io_bind_assoc. apply io_bind_ext. intros _. apply IH.
Qed.

Lemma for_of_map {A B} (g : A → B) (l : list A) body :
  for_of (map g l) body = for_of l (λ x, body (g x)).
Proof.
  induction l as [|x l IH]; [done|].
  change (io_bind (body (g x)) (λ _, for_of (map g l) body)
          = io_bind (body (g x)) (λ _, for_of l (λ x, body (g x)))).
  apply io_bind_ext. intros _. apply IH.
Qed.

Lemma writes_app ops ops' : writes (ops ++ ops') = writes ops ++ writes ops'.
Proof. apply flat_map_app. Qed.

Lemma for_of_planned_return p d l :
  for_of ((Return p, d) :: l) write_planned
  = (Mkdir (path_dirname p) :: WriteFile p d :: (for_of l write_planned).1,
     (for_of l write_planned).2).
Proof.
  change (for_of ((Return p, d) :: l) write_planned)
    with (io_bind (write_planned (Return p, d)) (λ _, for_of l write_planned)).
  generalize (for_of l write_planned). by intros [ops c].
Qed.

Lemma for_of_planned_throw msg d l :
  for_of ((Throw msg, d) :: l) write_planned = ([], Throw msg).
Proof. reflexivity. Qed.

(** While the sandbox accepts, every planned file is written, in order. *)
Lemma for_of_planned_accepted pre post :
  forallb (λ e, is_return e.1) pre = true →
  writes (for_of (pre ++ post) write_planned).1
  = accepted pre ++ writes (for_of post write_planned).1
  ∧ (for_of (pre ++ post) write_planned).2 = (for_of post write_planned).2.
Proof.
  induction pre as [|[[p|msg] d] pre IH]; intros H; simpl in H; [done| |done].
  destruct (IH H) as [IH1 IH2].
  change (((Return p, d) :: pre) ++ post) with ((Return p, d) :: pre ++ post).
  rewrite for_of_planned_return. simpl. by rewrite IH1, IH2.
Qed.

Lemma accepted_length pre :
  forallb (λ e, is_return e.1) pre = true → length (accepted pre) = length pre.
Proof.
  induction pre as [|[[p|msg] d] pre IH]; intros H; simpl in *; [done| |done].
  by rewrite IH.
Qed.

Lemma seed_loop_run cwd context pd (seeds : option (list RecipeFile)) :
  let loop :=
    if_nonempty seeds (λ seeds,
      let* _ := io_do (Mkdir (path_join [pd; lit "seed"])) in
      for_of seeds (write_seed cwd context pd)) in
  let planned :=
    for_of (map (planned_seed cwd context pd) (default [] seeds)) write_planned in
  writes loop.1 = writes planned.1 ∧ loop.2 = planned.2.
Proof.
  destruct seeds as [[|f fs]|]; [done| |done].
  cbv zeta. unfold if_nonempty, default.
  rewrite io_bind_do, for_of_map. done.
Qed.

Lemma extra_loop_run cwd context pd (extras : option (list RecipeFile)) :
  let loop :=
    if_nonempty extras (λ extras, for_of extras (write_extra cwd context pd)) in
  let planned :=
    for_of (map (planned_extra cwd context pd) (default [] extras)) write_planned in
  writes loop.1 = writes planned.1 ∧ loop.2 = planned.2.
Proof.
  destruct extras as [[|f fs]|]; [done| |done].
  cbv zeta. unfold if_nonempty, default.
  rewrite for_of_map. done.
Qed.

Lemma loops_then_return {A} (S E : io unit) plan_s plan_e (res : A) :
  writes S.1 = writes (for_of plan_s write_planned).1 →
  S.2 = (for_of plan_s write_planned).2 →
  writes E.1 = writes (for_of plan_e write_planned).1 →
  E.2 = (for_of plan_e write_planned).2 →
  let T := io_bind S (λ _, io_bind E (λ _, io_ret res)) in
  let P := for_of (plan_s ++ plan_e) write_planned in
  writes T.1 = writes P.1
  ∧ T.2 = match P.2 with Return _ => Return res | Throw e => Throw e end.
Proof.
  intros HS1 HS2 HE1 HE2. cbv zeta. rewrite for_of_app.
  destruct S as [os cs], E as [oe ce].
  destruct (for_of plan_s write_planned) as [ps cps].
  destruct (for_of plan_e write_planned) as [pe cpe].
  simpl in *. subst cps cpe.
  destruct cs as [[]|es]; simpl; [|done].
  destruct ce as [[]|ee]; simpl.
  - by rewrite !writes_app, app_nil_r, HS1, HE1.
  - by rewrite !writes_app, HS1, HE1.
Qed.

(** A run of [generateProject]: the project directory and the three main
    files first, then the planned files for as long as the sandbox
    accepts. *)
Lemma generateProject_run cwd gen r pn overrides :
  let context := render_context r pn overrides in
  let pd := path_join [gen; pn] in
  let compose := renderTemplate context (composeTemplate r) in
  let env := renderTemplate context (envTemplate r) in
  let readme := renderTemplate context (readmeTemplate r) in
  let P := for_of (planned_files cwd context pd r) write_planned in
  ∃ more,
    (generateProject cwd gen r pn overrides).1
    = Mkdir pd
      :: WriteFile (path_join [pd; lit "docker-compose.yml"]) compose
      :: WriteFile (path_join [pd; lit ".env"]) env
      :: WriteFile (path_join [pd; lit "README.md"]) readme
      :: more
    ∧ writes more = writes P.1
    ∧ (generateProject cwd gen r pn overrides).2
      = match P.2 with
        | Return _ => Return {| projectDir := pd; files_compose := compose;
                                files_env := env; files_readme := readme |}
        | Throw e => Throw e
        end.
Proof.
  cbv zeta. unfold generateProject. rewrite !io_bind_do. cbn [fst snd].
  eexists. split; [reflexivity|].
  destruct (seed_loop_run cwd (render_context r pn overrides)
              (path_join [gen; pn]) (seedFiles r)) as [HS1 HS2].
  destruct (extra_loop_run cwd (render_context r pn overrides)
              (path_join [gen; pn]) (extraFiles r)) as [HE1 HE2].
  by apply loops_then_return.
Qed.

(** Runs that are not clean. An extra file whose path renders to the empty
    text is accepted by the sandbox with the project directory itself as
    its target, and a seed file with the path [.] with the seed directory:
    the write meets a directory that the call has made. A file written
    where a later file needs a directory is in the way as well. *)
Example fs_clean_refuses :
  let cwd := lit "/srv/app" in
  let gen := lit "/root/gen" in
  let file (path : str) := {| f_path := path; f_content := lit "x" |} in
  let run seeds extras :=
    generateProject cwd gen (example_recipe [] "image: busybox" seeds extras)
      (lit "proj") ∅ in
  safeJoin cwd (lit "/root/gen/proj") (renderTemplate ∅ (lit "{{NOPE}}"))
  = Return (lit "/root/gen/proj")
  ∧ fs_clean cwd (run None (Some [file (lit "{{NOPE}}"); file (lit "/etc/passwd")])).1
    = false
  ∧ last (run (Some [file (lit ".")]) None).1
    = Some (WriteFile (lit "/root/gen/proj/seed") (lit "x"))
  ∧ fs_clean cwd (run (Some [file (lit ".")]) None).1 = false
  ∧ fs_clean cwd (run None (Some [file (lit "a"); file (lit "a/b")])).1 = false
  ∧ fs_clean cwd (run None (Some [file (lit "a/b"); file (lit "a")])).1 = false
  ∧ fs_clean cwd (run (Some [file (lit "a.sql")])
                      (Some [file (lit "a/b"); file (lit "a/c"); file (lit "a/b")])).1
    = true.
Proof. repeat split; vm_compute; reflexivity. Qed.

(** ** C9: the run stops at the first rejected path *)

(** C9. The seed files and then the extra files are handled one after the
    other in declared order. If the sandbox rejects the file at index [i] of
    that sequence and accepted all before it, and the operations up to
    there do not defeat one another, so that the writes before index [i]
    succeed, the call ends by throwing the sandbox's error; the files
    written are the three main ones followed by exactly the [i] files
    before index [i], in order, and nothing at or after index [i]. *)
Theorem generateProject_aborts_at_first_escape
    (cwd gen : str) (r : Recipe) (pn : str) (overrides : gmap str jsval)
    (i : nat) (msg d : str) :
  let context := render_context r pn overrides in
  let pd := path_join [gen; pn] in
  let plan := planned_files cwd context pd r in
  let run := generateProject cwd gen r pn overrides in
  plan !! i = Some (Throw msg, d) →
  forallb (λ e, is_return e.1) (take i plan) = true →
  fs_clean cwd run.1 = true →
  writes run.1
  = [ (path_join [pd; lit "docker-compose.yml"],
       renderTemplate context (composeTemplate r));
      (path_join [pd; lit ".env"], renderTemplate context (envTemplate r));
      (path_join [pd; lit "README.md"],
       renderTemplate context (readmeTemplate r)) ]
    ++ accepted (take i plan)
  ∧ length (accepted (take i plan)) = i
  ∧ run.2 = Throw msg.
Proof.
  intros context pd plan run Hi Hbefore _.
  destruct (generateProject_run cwd gen r pn overrides)
    as (more & Hops & Hmore & Hend).
  fold context pd plan run in Hops, Hmore, Hend.
  pose proof (take_drop_middle plan i _ Hi) as Hsplit.
  destruct (for_of_planned_accepted (take i plan)
              ((Throw msg, d) :: drop (S i) plan) Hbefore) as [Hw Hc].
  rewrite Hsplit, for_of_planned_throw in Hw, Hc. simpl in Hw, Hc.
  rewrite app_nil_r in Hw.
  split; [|split].
  - rewrite Hops. simpl. by rewrite Hmore, Hw.
  - rewrite accepted_length by done. rewrite length_take.
    apply lookup_lt_Some in Hi. lia.
  - by rewrite Hend, Hc.
Qed.

Lemma generateProject_aborts_at_first_escape_witness :
  let run := generateProject (lit "/srv/app") (lit "/root/gen") aborting_recipe
               (lit "proj") ∅ in
  writes run.1
  = [ (lit "/root/gen/proj/docker-compose.yml", lit "image: latest");
      (lit "/root/gen/proj/.env", lit "NAME=proj");
      (lit "/root/gen/proj/README.md", lit "# proj");
      (lit "/root/gen/proj/seed/a.sql", lit "select 1;");
      (lit "/root/gen/proj/conf/latest.txt", lit "first") ]
  ∧ run.2 = Throw (lit "Invalid file path: /etc/passwd").
Proof.
  destruct (generateProject_aborts_at_first_escape
              (lit "/srv/app") (lit "/root/gen") aborting_recipe (lit "proj") ∅
              2 (lit "Invalid file path: /etc/passwd") (lit "second"))
    as (Hw & _ & Hend).
  - vm_compute. reflexivity.
  - vm_compute. reflexivity.
  - vm_compute. reflexivity.
  - split; [|exact Hend].
    etrans; [exact Hw|]. vm_compute. reflexivity.
Defined.

(** ** C8: the three main files *)

(** C8. With the generation root a normalised absolute path and a project
    name matching its pattern, [generateProject] first creates
    [<root>/<projectName>] and writes the rendered compose, env and readme
    templates to [docker-compose.yml], [.env] and [README.md] in it; it then
    either throws or returns that directory and those same three strings,
    and it returns whenever the sandbox accepts every seed and extra file
    and the operations of the run do not defeat one another.
    For the template [image: {{TAG}}] with [TAG] defaulting to [latest] and
    no override, the compose content written and returned is
    [image: latest]. *)
Theorem generateProject_main_files
    (cwd : str) (segs : list str) (r : Recipe) (pn : str)
    (overrides : gmap str jsval) :
  forallb clean_segment segs = true →
  projectName_pattern pn = true →
  let context := render_context r pn overrides in
  let compose := renderTemplate context (composeTemplate r) in
  let env := renderTemplate context (envTemplate r) in
  let readme := renderTemplate context (readmeTemplate r) in
  let pd := abs_path (segs ++ [pn]) in
  let run := generateProject cwd (abs_path segs) r pn overrides in
  let result := {| projectDir := pd; files_compose := compose;
                   files_env := env; files_readme := readme |} in
  (∃ more,
     run.1 = Mkdir pd
             :: WriteFile (abs_path (segs ++ [pn; lit "docker-compose.yml"])) compose
             :: WriteFile (abs_path (segs ++ [pn; lit ".env"])) env
             :: WriteFile (abs_path (segs ++ [pn; lit "README.md"])) readme
             :: more)
  ∧ (run.2 = Return result ∨ ∃ msg, run.2 = Throw msg)
  ∧ (forallb (λ e, is_return e.1) (planned_files cwd context pd r) = true →
     fs_clean cwd run.1 = true →
     run.2 = Return result)
  ∧ generateProject cwd (lit "/root/gen") tag_recipe (lit "proj") ∅
    = ([ Mkdir (lit "/root/gen/proj");
         WriteFile (lit "/root/gen/proj/docker-compose.yml") (lit "image: latest");
         WriteFile (lit "/root/gen/proj/.env") (lit "NAME=proj");
         WriteFile (lit "/root/gen/proj/README.md") (lit "# proj") ],
       Return {| projectDir := lit "/root/gen/proj";
                 files_compose := lit "image: latest";
                 files_env := lit "NAME=proj";
                 files_readme := lit "# proj" |}).
Proof.
  intros Hsegs Hpn context compose env readme pd run result.
  pose proof (projectName_pattern_clean _ Hpn) as Hclean.
  assert (Hpd : path_join [abs_path segs; pn] = pd)
    by by apply path_join_abs_path.
  assert (Hfile : ∀ name : string, clean_segment (lit name) = true →
            path_join [pd; lit name] = abs_path (segs ++ [pn; lit name])).
  { intros name Hname. unfold pd. rewrite path_join_abs_path.
    - by rewrite <- app_assoc.
    - rewrite forallb_app, Hsegs. simpl. by rewrite Hclean.
    - done. }
  destruct (generateProject_run cwd (abs_path segs) r pn overrides)
    as (more & Hops & Hmore & Hend).
  rewrite Hpd in Hops, Hmore, Hend.
  rewrite !Hfile in Hops by done.
  fold context compose env readme result run in Hops, Hend.
  split; [by exists more|]. split; [|split].
  - rewrite Hend. destruct (for_of _ _).2; eauto.
  - intros Hall _. rewrite Hend.
    destruct (for_of_planned_accepted _ [] Hall) as [_ Hc].
    rewrite app_nil_r in Hc. fold context in Hc. by rewrite Hc.
  - vm_compute. reflexivity.
Qed.

Lemma generateProject_main_files_witness :
  (generateProject (lit "/srv/app") (abs_path [lit "root"; lit "gen"])
     tag_recipe (lit "proj") ∅).2
  = Return {| projectDir := lit "/root/gen/proj";
              files_compose := lit "image: latest";
              files_env := lit "NAME=proj";
              files_readme := lit "# proj" |}.
Proof.
  destruct (generateProject_main_files (lit "/srv/app") [lit "root"; lit "gen"]
              tag_recipe (lit "proj") ∅) as (_ & _ & Hreturn & _).
  - reflexivity.
  - reflexivity.
  - etrans; [apply Hreturn; vm_compute; reflexivity|]. vm_compute. reflexivity.
Defined.

(** * Further properties of the renderer *)

(** X1. A template in which [{{] does not occur renders to itself,
    whatever the context. *)
Theorem renderTemplate_without_placeholder (context : gmap str jsval) (t : str) :
  no_placeholder_start t = true → renderTemplate context t = t.
Proof.
  induction t as [|c t IH]; [by rewrite renderTemplate_nil|].
  simpl. intros [Hc Ht]%andb_true_iff. apply negb_true_iff in Hc.
  rewrite renderTemplate_char by by apply match_token_needs_braces.
  by rewrite IH.
Qed.

Lemma renderTemplate_without_placeholder_witness :
  renderTemplate {[ lit "A" := VStr (lit "x") ]} (lit "{ A } and }}{ {A}")
  = lit "{ A } and }}{ {A}".
Proof. apply renderTemplate_without_placeholder. vm_compute. reflexivity. Defined.

(** X2. A placeholder whose key the context does not bind, and which is
    not a member name of [Object.prototype], disappears from the output. *)
Theorem renderTemplate_absent_key (context : gmap str jsval)
    (ws1 k ws2 rest : str) :
  forallb is_space ws1 = true → is_key k = true → forallb is_space ws2 = true →
  context !! k = None → object_prototype k = None →
  renderTemplate context (placeholder ws1 k ws2 ++ rest)
  = renderTemplate context rest.
Proof.
  intros H1 Hk H2 Hctx Hproto.
  rewrite renderTemplate_placeholder by done.
  by rewrite replacer_absent.
Qed.

Lemma renderTemplate_absent_key_witness :
  renderTemplate {[ lit "A" := VStr (lit "x") ]} (lit "{{ MISSING }}!") = lit "!".
Proof.
  etrans.
  - apply (renderTemplate_absent_key _ (lit " ") (lit "MISSING") (lit " ") (lit "!"));
      vm_compute; reflexivity.
  - vm_compute. reflexivity.
Defined.

(** X3. Braces that enclose only white space are no placeholder: they are
    copied to the output as they are. *)
Theorem renderTemplate_empty_braces (context : gmap str jsval) (ws rest : str) :
  forallb is_space ws = true →
  renderTemplate context (lit "{{" ++ ws ++ lit "}}" ++ rest)
  = lit "{{" ++ ws ++ lit "}}" ++ renderTemplate context rest.
Proof.
  intros Hws.
  assert (Hnot : ∀ c, c ∈ ws → (c =? 123) = false).
  { intros c Hc%list_elem_of_In.
    pose proof (proj1 (forallb_forall is_space ws) Hws c Hc) as Hsp.
    destruct (c =? 123) eqn:E; [|done].
    apply N.eqb_eq in E. by subst c. }
  assert (Hplain : forallb (λ c, negb (c =? 123)) (ws ++ lit "}}") = true).
  { rewrite forallb_app. apply andb_true_iff. split; [|done].
    apply forallb_forall. intros c Hc%list_elem_of_In.
    by rewrite Hnot. }
  assert (Hkey : match_token (lit "{{" ++ ws ++ lit "}}" ++ rest) = None).
  { unfold match_token. rewrite strip_prefix_app.
    rewrite (span_app is_space ws) by done.
    change (lit "}}" ++ rest) with (125 :: 125 :: rest). cbn [span].
    by change (is_word 125) with false. }
  change (lit "{{" ++ ws ++ lit "}}" ++ rest)
    with (123 :: 123 :: ws ++ lit "}}" ++ rest) in *.
  rewrite renderTemplate_char by exact Hkey.
  rewrite renderTemplate_char.
  - rewrite (app_assoc ws), renderTemplate_plain_prefix by done.
    by rewrite <- app_assoc.
  - apply match_token_needs_braces. simpl.
    destruct ws as [|c ws]; [done|]. simpl.
    apply Hnot, list_elem_of_here.
Qed.

Lemma renderTemplate_empty_braces_witness :
  renderTemplate ∅ (lit "{{ }} b") = lit "{{ }} b".
Proof.
  etrans.
  - apply (renderTemplate_empty_braces ∅ (lit " ") (lit " b")). reflexivity.
  - vm_compute. reflexivity.
Defined.

(** * Placeholders in the context that [generateProject] builds *)

(** A key that the schema accepts is a key that the template pattern
    captures. *)
Lemma key_pattern_is_key k : key_pattern k = true → is_key k = true.
Proof.
  assert (Hw : ∀ x, is_upper x || is_digit x || (x =? 95) = true →
                    is_word x = true).
  { intros x. unfold is_upper, is_digit, is_word.
    rewrite !orb_true_iff, !andb_true_iff, !N.leb_le, N.eqb_eq. lia. }
  destruct k as [|c rest]; [done|]. simpl.
  intros [Hc Hrest]%andb_true_iff.
  unfold is_key. simpl. apply andb_true_iff. split.
  - apply Hw. by rewrite Hc.
  - apply forallb_forall. intros x Hx. apply Hw.
    by apply (proj1 (forallb_forall _ rest) Hrest).
Qed.

Lemma render_context_projectName r pn overrides :
  RecipeVariableSchema_keys r = true →
  render_context r pn overrides !! lit "projectName" = Some (VStr pn).
Proof.
  intros Hkeys. unfold render_context.
  apply lookup_union_Some_raw. right. split.
  - apply (Object_fromEntries_notin v_key (bound_value overrides)).
    intros (v & Hv & Hin)%list_elem_of_In%in_map_iff.
    apply list_elem_of_In in Hin.
    pose proof (forallb_elem _ _ _ Hkeys Hin) as Hk. simpl in Hk.
    rewrite Hv in Hk. by apply key_pattern_not_projectName in Hk.
  - apply lookup_singleton_eq.
Qed.

(** X4. In the templates of [generateProject], a placeholder for a declared
    variable (the last declaration of its key, the key matching the
    schema's pattern) is replaced by the override when the override mapping
    has an entry for the key and by the declared default otherwise; white
    space inside the braces makes no difference. *)
Theorem render_context_placeholder (r : Recipe) (pn : str)
    (overrides : gmap str jsval) (pre post : list RecipeVariable)
    (v : RecipeVariable) (ws1 ws2 rest : str) :
  variables r = pre ++ v :: post →
  v_key v ∉ map v_key post →
  key_pattern (v_key v) = true →
  forallb is_space ws1 = true → forallb is_space ws2 = true →
  renderTemplate (render_context r pn overrides)
                 (placeholder ws1 (v_key v) ws2 ++ rest)
  = ToString (match overrides !! v_key v with
              | Some x => x
              | None => VStr (v_default v)
              end)
    ++ renderTemplate (render_context r pn overrides) rest.
Proof.
  intros Hvars Hpost Hk H1 H2.
  rewrite renderTemplate_placeholder by (done || by apply key_pattern_is_key).
  unfold replacer, js_get.
  rewrite (render_context_last r pn overrides pre post v) by done.
  by rewrite bound_value_key_pattern.
Qed.

Lemma render_context_placeholder_witness :
  renderTemplate
    (render_context tag_recipe (lit "proj") {[ lit "TAG" := VStr (lit "3.19") ]})
    (lit "{{ TAG }}-alpine")
  = lit "3.19-alpine".
Proof.
  etrans.
  - apply (render_context_placeholder tag_recipe (lit "proj")
             {[ lit "TAG" := VStr (lit "3.19") ]} [] []
             (example_variable "TAG" "latest" false None)
             (lit " ") (lit " ") (lit "-alpine")).
    + reflexivity.
    + vm_compute. apply not_elem_of_nil.
    + reflexivity.
    + reflexivity.
    + reflexivity.
  - vm_compute. reflexivity.
Defined.

(** X5. For a recipe whose variable keys match the schema's pattern, the
    placeholder [{{projectName}}] is replaced by the project name passed to
    [generateProject]; no variable or override can change that. *)
Theorem render_context_projectName_placeholder (r : Recipe) (pn : str)
    (overrides : gmap str jsval) (ws1 ws2 rest : str) :
  RecipeVariableSchema_keys r = true →
  forallb is_space ws1 = true → forallb is_space ws2 = true →
  renderTemplate (render_context r pn overrides)
                 (placeholder ws1 (lit "projectName") ws2 ++ rest)
  = pn ++ renderTemplate (render_context r pn overrides) rest.
Proof.
  intros Hkeys H1 H2.
  rewrite renderTemplate_placeholder by done.
  by rewrite (replacer_own _ _ pn) by by apply render_context_projectName.
Qed.

Lemma render_context_projectName_placeholder_witness :
  renderTemplate
    (render_context tag_recipe (lit "proj")
                    {[ lit "projectName" := VStr (lit "other") ]})
    (lit "{{projectName}}_db")
  = lit "proj_db".
Proof.
  etrans.
  - apply (render_context_projectName_placeholder tag_recipe (lit "proj")
             {[ lit "projectName" := VStr (lit "other") ]} [] [] (lit "_db"));
      reflexivity.
  - vm_compute. reflexivity.
Defined.

(** * Further properties of the path sandbox *)

Lemma strip_prefix_Some_length p s r :
  strip_prefix p s = Some r → length s = (length p + length r)%nat.
Proof.
  revert s; induction p as [|a p IH]; intros [|b s]; simpl; try congruence.
  - intros [= <-]; done.
  - intros [= <-]; done.
  - destruct (a =? b); [|done]. intros H%IH. lia.
Qed.

Lemma startsWith_length s p : startsWith s p = true → (length p ≤ length s)%nat.
Proof.
  unfold startsWith. destruct (strip_prefix p s) as [r|] eqn:E; [|done].
  apply strip_prefix_Some_length in E. lia.
Qed.

Lemma startsWith_app p x : startsWith (p ++ x) p = true.
Proof. unfold startsWith. by rewrite strip_prefix_app. Qed.

Lemma is_absolute_nonempty p : is_absolute p = true → p ≠ [].
Proof. by destruct p. Qed.

(** [path.resolve(base, target)] in its three cases, for an absolute base. *)
Lemma path_resolve_relative cwd base t :
  is_absolute base = true → t ≠ [] → is_absolute t = false →
  path_resolve cwd [base; t]
  = slash :: normalizeString (base ++ slash :: t ++ [slash]) false.
Proof.
  intros Hb Ht Hrel. pose proof (is_absolute_nonempty _ Hb) as Hbne.
  unfold path_resolve. simpl rev. simpl app.
  cbn [resolve_loop].
  rewrite (decide_False (P := t = [])) by done. rewrite Hrel.
  rewrite (decide_False (P := base = [])) by done. rewrite Hb.
  reflexivity.
Qed.

Lemma path_resolve_absolute cwd base t :
  is_absolute t = true →
  path_resolve cwd [base; t] = slash :: normalizeString (t ++ [slash]) false.
Proof.
  intros Ht. pose proof (is_absolute_nonempty _ Ht) as Htne.
  unfold path_resolve. simpl rev. simpl app.
  cbn [resolve_loop].
  rewrite (decide_False (P := t = [])) by done. rewrite Ht.
  reflexivity.
Qed.

Lemma path_resolve_empty cwd base :
  is_absolute base = true →
  path_resolve cwd [base; []]
  = slash :: normalizeString (base ++ [slash]) false.
Proof.
  intros Hb. pose proof (is_absolute_nonempty _ Hb) as Hbne.
  unfold path_resolve. simpl rev. simpl app.
  cbn [resolve_loop].
  rewrite (decide_True (P := [] = [])) by done.
  rewrite (decide_False (P := base = [])) by done. rewrite Hb.
  reflexivity.
Qed.

(** X6. With an absolute base, as [paths.generatedDir] and every project
    directory are, the sandbox's answer does not depend on the working
    directory of the process. *)
Theorem safeJoin_ignores_cwd (cwd cwd' base target : str) :
  is_absolute base = true →
  safeJoin cwd base target = safeJoin cwd' base target.
Proof.
  intros Hb. unfold safeJoin.
  assert (H : path_resolve cwd [base; target] = path_resolve cwd' [base; target]).
  { destruct (decide (target = [])) as [->|Hne].
    - by rewrite !path_resolve_empty.
    - destruct (is_absolute target) eqn:Ht.
      + by rewrite !path_resolve_absolute.
      + by rewrite !path_resolve_relative. }
  by rewrite H.
Qed.

Lemma safeJoin_ignores_cwd_witness :
  safeJoin (lit "/srv/app") (lit "/root/gen/proj") (lit "a/../b.txt")
  = safeJoin (lit "/tmp") (lit "/root/gen/proj") (lit "a/../b.txt").
Proof. apply safeJoin_ignores_cwd. reflexivity. Defined.

Lemma push_segment_empty allow res : push_segment allow res [] = res.
Proof. unfold push_segment. by rewrite decide_True. Qed.

Lemma split_slash_trailing s : split_slash (s ++ [slash]) = split_slash s ++ [[]].
Proof. apply (split_slash_app s []). Qed.

Lemma fold_push_abs_path segs :
  forallb clean_segment segs = true →
  fold_left (push_segment false) (split_slash (abs_path segs)) [] = rev segs.
Proof.
  intros Hsegs.
  pose proof (normalize_segments_abs_path segs Hsegs) as H.
  unfold normalize_segments in H.
  apply (f_equal (@rev str)) in H. by rewrite rev_involutive in H.
Qed.

Lemma join_slash_first seg segs :
  clean_segment seg = true →
  join_slash (seg :: segs) ≠ [] ∧ is_absolute (join_slash (seg :: segs)) = false.
Proof.
  intros Hseg. pose proof (clean_segment_free _ Hseg) as Hfree.
  destruct seg as [|c seg]; [done|].
  simpl in Hfree. apply andb_true_iff in Hfree as [Hc _].
  apply negb_true_iff in Hc.
  destruct segs; simpl; by rewrite ?Hc.
Qed.

(** A relative path of clean segments resolves, against a normalised
    absolute base, to the base extended by those segments. *)
Lemma path_resolve_clean cwd segs tsegs :
  forallb clean_segment segs = true → forallb clean_segment tsegs = true →
  tsegs ≠ [] →
  path_resolve cwd [abs_path segs; join_slash tsegs] = abs_path (segs ++ tsegs).
Proof.
  intros Hsegs Htsegs Hne.
  destruct tsegs as [|t tsegs]; [done|].
  pose proof Htsegs as Ht. simpl in Ht. apply andb_true_iff in Ht as [Ht _].
  destruct (join_slash_first t tsegs Ht) as [Hjne Hrel].
  rewrite path_resolve_relative by done.
  unfold abs_path at 2. f_equal.
  unfold normalizeString, normalize_segments. f_equal.
  rewrite split_slash_app, split_slash_trailing, (split_join_clean (t :: tsegs)) by done.
  rewrite !fold_left_app, fold_push_abs_path by done.
  rewrite (fold_push_clean false (t :: tsegs)) by done. simpl fold_left.
  rewrite push_segment_empty, rev_app_distr, !rev_involutive.
  f_equal. by rewrite rev_app_distr, rev_involutive.
Qed.

Lemma join_slash_prefix l1 l2 : ∃ x, join_slash (l1 ++ l2) = join_slash l1 ++ x.
Proof.
  induction l1 as [|a l1 IH]; [by exists (join_slash l2)|].
  destruct IH as [x IH]. destruct l1 as [|b l1].
  - destruct l2 as [|c l2].
    + exists []. by rewrite !app_nil_r.
    + by exists (slash :: join_slash (c :: l2)).
  - exists x.
    change (a ++ slash :: join_slash ((b :: l1) ++ l2)
            = (a ++ slash :: join_slash (b :: l1)) ++ x).
    rewrite IH. by rewrite <- app_assoc.
Qed.

Lemma abs_path_startsWith l1 l2 :
  startsWith (abs_path (l1 ++ l2)) (abs_path l1) = true.
Proof.
  destruct (join_slash_prefix l1 l2) as [x Hx].
  unfold abs_path. rewrite Hx.
  apply (startsWith_app (slash :: join_slash l1) x).
Qed.

(** X7. For a normalised absolute base, a target made of clean segments
    (no [.], [..] or empty segment) is accepted and resolves to the base
    extended by exactly those segments. *)
Theorem safeJoin_accepts_clean_target (cwd : str) (segs tsegs : list str) :
  forallb clean_segment segs = true → forallb clean_segment tsegs = true →
  tsegs ≠ [] →
  safeJoin cwd (abs_path segs) (join_slash tsegs) = Return (abs_path (segs ++ tsegs)).
Proof.
  intros Hsegs Htsegs Hne. unfold safeJoin.
  rewrite path_resolve_clean by done.
  by rewrite abs_path_startsWith.
Qed.

Lemma safeJoin_accepts_clean_target_witness :
  safeJoin (lit "/srv/app") (lit "/root/gen/proj") (lit "seed/init/a.sql")
  = Return (lit "/root/gen/proj/seed/init/a.sql").
Proof.
  apply (safeJoin_accepts_clean_target (lit "/srv/app")
           [lit "root"; lit "gen"; lit "proj"]
           [lit "seed"; lit "init"; lit "a.sql"]); [reflexivity|reflexivity|done].
Defined.

Lemma split_join_free segs :
  Forall (λ seg, forallb (λ c, negb (c =? slash)) seg = true) segs →
  split_slash (join_slash segs) = match segs with [] => [[]] | _ => segs end.
Proof.
  induction 1 as [|seg segs Hseg Hsegs IH]; [done|].
  destruct segs as [|seg' segs].
  - simpl. by apply split_slash_free.
  - change (join_slash (seg :: seg' :: segs))
      with (seg ++ slash :: join_slash (seg' :: segs)).
    by rewrite split_slash_app, IH, split_slash_free.
Qed.

Lemma push_segment_dotdot res :
  forallb clean_segment res = true →
  push_segment false res (lit "..") = drop 1 res.
Proof.
  intros Hres. unfold push_segment.
  rewrite decide_False by done. rewrite decide_False by done.
  rewrite decide_True by done.
  destruct res as [|last res]; [done|].
  simpl in Hres. apply andb_true_iff in Hres as [Hlast _].
  rewrite decide_False; [done|]. by intros ->.
Qed.

Lemma forallb_drop {A} (p : A → bool) k l :
  forallb p l = true → forallb p (drop k l) = true.
Proof.
  revert l. induction k as [|k IH]; intros [|x l]; simpl; try done.
  intros [_ H]%andb_true_iff. by apply IH.
Qed.

Lemma fold_push_dotdot k res :
  forallb clean_segment res = true →
  fold_left (push_segment false) (replicate k (lit "..")) res = drop k res.
Proof.
  revert res. induction k as [|k IH]; intros res Hres; [done|].
  cbn [replicate fold_left]. rewrite push_segment_dotdot by done.
  rewrite IH by by apply forallb_drop.
  by rewrite drop_drop.
Qed.

Lemma join_slash_longer l1 l2 :
  l2 ≠ [] → forallb clean_segment l2 = true →
  (length (join_slash l1) < length (join_slash (l1 ++ l2)))%nat.
Proof.
  intros Hne Hclean. induction l1 as [|a l1 IH].
  - destruct l2 as [|c l2]; [done|].
    simpl in Hclean. apply andb_true_iff in Hclean as [Hc _].
    apply clean_segment_nonempty in Hc.
    destruct c as [|x c]; [done|].
    destruct l2; simpl; rewrite ?length_app; simpl; lia.
  - destruct l1 as [|b l1].
    + destruct l2 as [|c l2]; [done|].
      change (length a < length (a ++ slash :: join_slash (c :: l2)))%nat.
      rewrite length_app. simpl. lia.
    + change (length (a ++ slash :: join_slash (b :: l1))
              < length (a ++ slash :: join_slash ((b :: l1) ++ l2)))%nat.
      rewrite !length_app. cbn [length]. lia.
Qed.

(** X8. For a normalised absolute base other than the root, a target made
    only of [..] segments is rejected: the parent directories of the base
    are out of reach. *)
Theorem safeJoin_rejects_parents (cwd : str) (segs : list str) (k : nat) :
  forallb clean_segment segs = true → segs ≠ [] → (0 < k)%nat →
  safeJoin cwd (abs_path segs) (join_slash (replicate k (lit "..")))
  = Throw (lit "Invalid file path: " ++ join_slash (replicate k (lit ".."))).
Proof.
  intros Hsegs Hne Hk.
  destruct k as [|k]; [lia|]. clear Hk.
  set (target := join_slash (replicate (S k) (lit ".."))).
  assert (Htarget : target ≠ [] ∧ is_absolute target = false).
  { unfold target. cbn [replicate]. by destruct (replicate k (lit "..")). }
  destruct Htarget as [Htne Hrel].
  assert (Hfree : Forall (λ seg, forallb (λ c, negb (c =? slash)) seg = true)
                         (replicate (S k) (lit ".."))).
  { by apply Forall_replicate. }
  assert (Hrev : forallb clean_segment (rev segs) = true).
  { apply forallb_forall. intros x Hx%in_rev.
    by apply (proj1 (forallb_forall _ segs) Hsegs). }
  unfold safeJoin. rewrite path_resolve_relative by done.
  assert (Hnorm : normalizeString (abs_path segs ++ slash :: target ++ [slash]) false
                  = join_slash (rev (drop (S k) (rev segs)))).
  { unfold normalizeString, normalize_segments. f_equal. f_equal.
    unfold target.
    rewrite split_slash_app, split_slash_trailing, split_join_free by done.
    cbn [replicate].
    change (lit ".." :: replicate k (lit "..")) with (replicate (S k) (lit "..")).
    rewrite !fold_left_app, fold_push_abs_path by done.
    rewrite fold_push_dotdot by done.
    simpl fold_left. by rewrite push_segment_empty. }
  rewrite Hnorm.
  destruct (startsWith (slash :: join_slash (rev (drop (S k) (rev segs))))
                       (abs_path segs)) eqn:E; [|done].
  exfalso. apply startsWith_length in E.
  pose proof (take_drop (S k) (rev segs)) as Hsplit.
  apply (f_equal (@rev str)) in Hsplit.
  rewrite rev_app_distr, rev_involutive in Hsplit.
  assert (Htake : rev (take (S k) (rev segs)) ≠ []).
  { destruct segs as [|s0 segs] using rev_ind; [done|].
    rewrite rev_app_distr. simpl. by destruct (rev (take k (rev segs))). }
  assert (Hclean : forallb clean_segment (rev (take (S k) (rev segs))) = true).
  { apply forallb_forall. intros x Hx%in_rev%list_elem_of_In%elem_of_take.
    destruct Hx as (i & Hx & _). apply list_elem_of_lookup_2, list_elem_of_In in Hx.
    by apply (proj1 (forallb_forall _ (rev segs)) Hrev). }
  pose proof (join_slash_longer (rev (drop (S k) (rev segs))) _ Htake Hclean) as Hlen.
  rewrite Hsplit in Hlen. unfold abs_path in E. simpl in E. lia.
Qed.

Lemma safeJoin_rejects_parents_witness :
  safeJoin (lit "/srv/app") (lit "/root/gen/proj") (lit "../..")
  = Throw (lit "Invalid file path: ../..").
Proof.
  apply (safeJoin_rejects_parents (lit "/srv/app")
           [lit "root"; lit "gen"; lit "proj"] 2); [reflexivity|done|lia].
Defined.

(** X9. An absolute target takes the place of the base when the path is
    resolved; it is accepted exactly when its own text begins with the
    base, and is then returned unchanged. *)
Theorem safeJoin_absolute_target (cwd base : str) (tsegs : list str) :
  forallb clean_segment tsegs = true →
  safeJoin cwd base (abs_path tsegs)
  = if startsWith (abs_path tsegs) base
    then Return (abs_path tsegs)
    else Throw (lit "Invalid file path: " ++ abs_path tsegs).
Proof.
  intros Htsegs. unfold safeJoin.
  rewrite path_resolve_absolute by done.
  assert (Hnorm : normalizeString (abs_path tsegs ++ [slash]) false
                  = join_slash tsegs).
  { unfold normalizeString, normalize_segments. f_equal.
    rewrite split_slash_trailing, fold_left_app, fold_push_abs_path by done.
    simpl fold_left. by rewrite push_segment_empty, rev_involutive. }
  rewrite Hnorm. fold (abs_path tsegs).
  by destruct (startsWith (abs_path tsegs) base).
Qed.

Lemma safeJoin_absolute_target_witness :
  safeJoin (lit "/srv/app") (lit "/root/gen/proj") (lit "/root/gen/proj/a")
  = Return (lit "/root/gen/proj/a")
  ∧ safeJoin (lit "/srv/app") (lit "/root/gen/proj") (lit "/etc/passwd")
    = Throw (lit "Invalid file path: /etc/passwd").
Proof.
  split.
  - apply (safeJoin_absolute_target (lit "/srv/app") (lit "/root/gen/proj")
             [lit "root"; lit "gen"; lit "proj"; lit "a"]). reflexivity.
  - apply (safeJoin_absolute_target (lit "/srv/app") (lit "/root/gen/proj")
             [lit "etc"; lit "passwd"]). reflexivity.
Defined.

(** * Further properties of [generateProject] *)

(** X10. When the sandbox accepts every seed and extra file and the
    operations of the run do not defeat one another, the call writes the
    three main files and then every seed and extra file, each once and in
    declared order, and returns. *)
Theorem generateProject_all_accepted
    (cwd gen : str) (r : Recipe) (pn : str) (overrides : gmap str jsval) :
  let context := render_context r pn overrides in
  let pd := path_join [gen; pn] in
  let compose := renderTemplate context (composeTemplate r) in
  let env := renderTemplate context (envTemplate r) in
  let readme := renderTemplate context (readmeTemplate r) in
  let plan := planned_files cwd context pd r in
  let run := generateProject cwd gen r pn overrides in
  forallb (λ e, is_return e.1) plan = true →
  fs_clean cwd run.1 = true →
  writes run.1
  = [ (path_join [pd; lit "docker-compose.yml"], compose);
      (path_join [pd; lit ".env"], env);
      (path_join [pd; lit "README.md"], readme) ] ++ accepted plan
  ∧ length (accepted plan)
    = (length (default [] (seedFiles r)) + length (default [] (extraFiles r)))%nat
  ∧ run.2 = Return {| projectDir := pd; files_compose := compose;
                      files_env := env; files_readme := readme |}.
Proof.
  intros context pd compose env readme plan run Hall _.
  destruct (generateProject_run cwd gen r pn overrides)
    as (more & Hops & Hmore & Hend).
  fold context pd compose env readme plan run in Hops, Hmore, Hend.
  destruct (for_of_planned_accepted plan [] Hall) as [Hw Hc].
  rewrite app_nil_r in Hw, Hc. simpl in Hw, Hc. rewrite app_nil_r in Hw.
  split; [|split].
  - rewrite Hops. simpl. by rewrite Hmore, Hw.
  - rewrite accepted_length by done. unfold plan, planned_files.
    by rewrite length_app, !length_map.
  - by rewrite Hend, Hc.
Qed.

Lemma generateProject_all_accepted_witness :
  let r := example_recipe [] "image: busybox"
             (Some [ {| f_path := lit "a.sql"; f_content := lit "select 1;" |} ])
             (Some [ {| f_path := lit "conf/app.txt"; f_content := lit "x" |} ]) in
  writes (generateProject (lit "/srv/app") (lit "/root/gen") r (lit "proj") ∅).1
  = [ (lit "/root/gen/proj/docker-compose.yml", lit "image: busybox");
      (lit "/root/gen/proj/.env", lit "NAME=proj");
      (lit "/root/gen/proj/README.md", lit "# proj");
      (lit "/root/gen/proj/seed/a.sql", lit "select 1;");
      (lit "/root/gen/proj/conf/app.txt", lit "x") ].
Proof.
  intros r.
  destruct (generateProject_all_accepted (lit "/srv/app") (lit "/root/gen") r
              (lit "proj") ∅) as (Hw & _ & _).
  - vm_compute. reflexivity.
  - vm_compute. reflexivity.
  - etrans; [exact Hw|]. vm_compute. reflexivity.
Defined.

Lemma writes_planned_accepted plan w :
  w ∈ writes (for_of plan write_planned).1 →
  ∃ e, e ∈ plan ∧ e.1 = Return w.1.
Proof.
  induction plan as [|[[p|msg] d] plan IH].
  - simpl. by intros ?%elem_of_nil.
  - rewrite for_of_planned_return. simpl.
    intros [->|Hw]%elem_of_cons.
    + exists (Return p, d). split; [apply list_elem_of_here|done].
    + destruct (IH Hw) as (e & He & Heq).
      exists e. split; [by apply list_elem_of_further|done].
  - rewrite for_of_planned_throw. simpl. by intros ?%elem_of_nil.
Qed.

Lemma planned_files_safeJoin cwd context pd r e :
  e ∈ planned_files cwd context pd r → ∃ target, e.1 = safeJoin cwd pd target.
Proof.
  unfold planned_files.
  intros [He|He]%elem_of_app; apply list_elem_of_In, in_map_iff in He;
    destruct He as (f & <- & _); eauto.
Qed.

(** X11. With the generation root a normalised absolute path and a project
    name matching its pattern, the path of every file that a call writes,
    whether the call returns or throws, begins with the path of the project
    directory. *)
Theorem generateProject_writes_under_prefix
    (cwd : str) (segs : list str) (r : Recipe) (pn : str)
    (overrides : gmap str jsval) :
  forallb clean_segment segs = true →
  projectName_pattern pn = true →
  Forall (λ w, startsWith w.1 (abs_path (segs ++ [pn])) = true)
         (writes (generateProject cwd (abs_path segs) r pn overrides).1).
Proof.
  intros Hsegs Hpn.
  pose proof (projectName_pattern_clean _ Hpn) as Hclean.
  assert (Hpd : path_join [abs_path segs; pn] = abs_path (segs ++ [pn]))
    by by apply path_join_abs_path.
  assert (Hfile : ∀ name : string, clean_segment (lit name) = true →
            startsWith (path_join [abs_path (segs ++ [pn]); lit name])
                       (abs_path (segs ++ [pn])) = true).
  { intros name Hname. rewrite path_join_abs_path.
    - apply abs_path_startsWith.
    - rewrite forallb_app, Hsegs. simpl. by rewrite Hclean.
    - done. }
  destruct (generateProject_run cwd (abs_path segs) r pn overrides)
    as (more & Hops & Hmore & _).
  rewrite Hpd in Hops, Hmore. rewrite Hops. simpl.
  repeat (apply Forall_cons; split; [by apply Hfile|]).
  rewrite Hmore. apply Forall_forall. intros w Hw.
  apply writes_planned_accepted in Hw as (e & He & Heq).
  apply planned_files_safeJoin in He as (target & Ht).
  apply (safeJoin_string_prefix cwd _ target). by rewrite <- Ht.
Qed.

Lemma generateProject_writes_under_prefix_witness :
  Forall (λ w, startsWith w.1 (lit "/root/gen/proj") = true)
         (writes (generateProject (lit "/srv/app") (lit "/root/gen")
                    aborting_recipe (lit "proj") ∅).1).
Proof.
  apply (generateProject_writes_under_prefix (lit "/srv/app")
           [lit "root"; lit "gen"] aborting_recipe (lit "proj") ∅);
    reflexivity.
Defined.

Lemma join_slash_prefix_last init last :
  ∃ y, join_slash (init ++ [last]) = y ++ last.
Proof.
  induction init as [|a init IH]; [by exists []|].
  destruct IH as [y IH]. destruct init as [|b init].
  - by exists (a ++ [slash]); rewrite <- app_assoc.
  - exists (a ++ slash :: y).
    change (a ++ slash :: join_slash ((b :: init) ++ [last])
            = (a ++ slash :: y) ++ last).
    rewrite IH. by rewrite <- app_assoc.
Qed.

(** [path.join("seed", p)] for a path [p] of clean segments, relative or
    absolute: in both cases the segments end up below [seed]. *)
Lemma path_join_seed tsegs :
  forallb clean_segment tsegs = true → tsegs ≠ [] →
  path_join [lit "seed"; join_slash tsegs] = join_slash (lit "seed" :: tsegs)
  ∧ path_join [lit "seed"; abs_path tsegs] = join_slash (lit "seed" :: tsegs).
Proof.
  intros Htsegs Hne.
  destruct tsegs as [|t tsegs]; [done|].
  pose proof Htsegs as Ht. simpl in Ht. apply andb_true_iff in Ht as [Ht _].
  destruct (join_slash_first t tsegs Ht) as [Hjne _].
  assert (Hall : forallb clean_segment (lit "seed" :: t :: tsegs) = true)
    by (simpl; simpl in Htsegs; by rewrite Htsegs).
  assert (Hlast : ∀ x, ends_with_slash (x ++ join_slash (t :: tsegs)) = false).
  { intros x.
    destruct (exists_last (l := t :: tsegs)) as (init & last & Heq); [done|].
    rewrite Heq in *.
    assert (Hl : clean_segment last = true).
    { apply (proj1 (forallb_forall _ _) Htsegs), in_app_iff. right. by left. }
    destruct (join_slash_prefix_last init last) as (y & ->).
    rewrite app_assoc. by apply ends_with_slash_clean. }
  assert (Hnorm : ∀ p,
            p ≠ [] → is_absolute p = false → ends_with_slash p = false →
            normalize_segments true p = lit "seed" :: t :: tsegs →
            path_normalize p = join_slash (lit "seed" :: t :: tsegs)).
  { intros p Hp Hrel Hend Hsegs. unfold path_normalize.
    rewrite decide_False by done. rewrite Hrel. cbn [negb].
    unfold normalizeString. rewrite Hsegs, Hend. by rewrite decide_False. }
  split.
  - unfold path_join. rewrite !filter_cons, filter_nil.
    rewrite decide_True by done. rewrite decide_True by done.
    change (join_slash [lit "seed"; join_slash (t :: tsegs)])
      with (lit "seed" ++ slash :: join_slash (t :: tsegs)).
    apply Hnorm; [done|done|apply (Hlast (lit "seed" ++ [slash]))|].
    unfold normalize_segments.
    rewrite split_slash_app, (split_join_clean (t :: tsegs)) by done.
    change (split_slash (lit "seed") ++ t :: tsegs) with (lit "seed" :: t :: tsegs).
    rewrite fold_push_clean by done. by rewrite app_nil_r, rev_involutive.
  - unfold path_join. rewrite !filter_cons, filter_nil.
    rewrite decide_True by done. rewrite decide_True by done.
    change (join_slash [lit "seed"; abs_path (t :: tsegs)])
      with (lit "seed" ++ slash :: slash :: join_slash (t :: tsegs)).
    apply Hnorm; [done|done|apply (Hlast (lit "seed" ++ [slash; slash]))|].
    unfold normalize_segments.
    rewrite split_slash_app.
    change (split_slash (slash :: join_slash (t :: tsegs)))
      with ([] :: split_slash (join_slash (t :: tsegs))).
    rewrite (split_join_clean (t :: tsegs)) by done.
    change (split_slash (lit "seed") ++ [] :: t :: tsegs)
      with ([lit "seed"; []] ++ t :: tsegs).
    rewrite fold_left_app.
    change (fold_left (push_segment true) [lit "seed"; []] [])
      with (push_segment true (push_segment true [] (lit "seed")) []).
    rewrite push_segment_empty, clean_segment_push by done.
    rewrite fold_push_clean by done.
    rewrite rev_app_distr, rev_involutive. done.
Qed.

(** X12. A seed file whose rendered path consists of clean segments is
    written below [seed] in the project directory, also when that path is
    absolute: [path.join("seed", ...)] turns a leading slash into a
    separator before the sandbox sees the path. *)
Theorem planned_seed_below_seed (cwd : str) (context : gmap str jsval)
    (psegs tsegs : list str) (f : RecipeFile) :
  forallb clean_segment psegs = true →
  forallb clean_segment tsegs = true → tsegs ≠ [] →
  renderTemplate context (f_path f) = join_slash tsegs
  ∨ renderTemplate context (f_path f) = abs_path tsegs →
  (planned_seed cwd context (abs_path psegs) f).1
  = Return (abs_path (psegs ++ lit "seed" :: tsegs)).
Proof.
  intros Hpsegs Htsegs Hne Hpath.
  destruct (path_join_seed tsegs Htsegs Hne) as [Hrel Habs].
  assert (Hjoin : path_join [lit "seed"; renderTemplate context (f_path f)]
                  = join_slash (lit "seed" :: tsegs)).
  { by destruct Hpath as [-> | ->]. }
  unfold planned_seed. simpl fst. rewrite Hjoin. unfold safeJoin.
  rewrite path_resolve_clean; [|done| |done].
  - by rewrite abs_path_startsWith.
  - simpl. simpl in Htsegs. by rewrite Htsegs.
Qed.

Lemma planned_seed_below_seed_witness :
  (planned_seed (lit "/srv/app") ∅ (lit "/root/gen/proj")
     {| f_path := lit "/etc/passwd"; f_content := lit "x" |}).1
  = Return (lit "/root/gen/proj/seed/etc/passwd").
Proof.
  apply (planned_seed_below_seed (lit "/srv/app") ∅
           [lit "root"; lit "gen"; lit "proj"] [lit "etc"; lit "passwd"]).
  - reflexivity.
  - reflexivity.
  - done.
  - right. vm_compute. reflexivity.
Defined.

(** * Further properties of the binder *)

Lemma getMissingRequired_nil r overrides :
  getMissingRequired r overrides = [] ↔
  ∀ v, v ∈ variables r → v_required v = true →
       falsy (bound_value overrides v) = false.
Proof.
  unfold getMissingRequired.
  induction (variables r) as [|v l IH].
  - split; [|done]. by intros _ v ?%elem_of_nil.
  - rewrite filter_cons. split.
    + intros Hnil u Hu Hreq.
      case_decide as Hv; [done|].
      apply elem_of_cons in Hu as [->|Hu].
      * rewrite Hreq in Hv. simpl in Hv. by destruct (falsy _).
      * by apply (proj1 IH).
    + intros Hall. case_decide as Hv.
      * apply andb_true_iff in Hv as [Hreq Hf].
        by rewrite (Hall v (list_elem_of_here _ _) Hreq) in Hf.
      * apply IH. intros u Hu. by apply Hall, list_elem_of_further.
Qed.

(** X13. For a recipe whose variable keys match the schema's pattern,
    [getMissingRequired] returns the empty list exactly when every required
    variable resolves to something other than the empty string, the
    resolved value being the override if the override mapping has an entry
    for the key and the default otherwise. *)
Theorem getMissingRequired_nil_iff (r : Recipe) (overrides : gmap str jsval) :
  RecipeVariableSchema_keys r = true →
  getMissingRequired r overrides = [] ↔
  ∀ v, v ∈ variables r → v_required v = true →
       match overrides !! v_key v with
       | Some x => x
       | None => VStr (v_default v)
       end ≠ VStr [].
Proof.
  intros Hkeys. rewrite getMissingRequired_nil.
  split; intros H v Hv Hreq.
  - pose proof (forallb_elem _ _ _ Hkeys Hv) as Hk. simpl in Hk.
    rewrite <- bound_value_key_pattern by done.
    intros Hempty%falsy_empty. by rewrite (H v Hv Hreq) in Hempty.
  - pose proof (forallb_elem _ _ _ Hkeys Hv) as Hk. simpl in Hk.
    destruct (falsy (bound_value overrides v)) eqn:E; [|done].
    apply falsy_empty in E. rewrite bound_value_key_pattern in E by done.
    by destruct (H v Hv Hreq).
Qed.

Lemma getMissingRequired_nil_iff_witness :
  getMissingRequired dbpass_recipe {[ lit "DB_PASS" := VStr (lit "pw") ]} = [].
Proof.
  apply (getMissingRequired_nil_iff dbpass_recipe
           {[ lit "DB_PASS" := VStr (lit "pw") ]}); [reflexivity|].
  intros v Hv _.
  apply elem_of_cons in Hv as [->|Hv]; [by vm_compute|].
  by apply elem_of_nil in Hv.
Defined.

Lemma ToString_nonempty x : falsy x = false → ToString x ≠ [].
Proof. by destruct x as [[|c s]| |]. Qed.

(** X14. When [getMissingRequired] returns the empty list, every
    placeholder for a required variable (the last declaration of its key,
    the key matching the schema's pattern) is replaced by a non-empty text
    in the templates of [generateProject]. *)
Theorem required_placeholder_nonempty (r : Recipe) (pn : str)
    (overrides : gmap str jsval) (pre post : list RecipeVariable)
    (v : RecipeVariable) (ws1 ws2 rest : str) :
  getMissingRequired r overrides = [] →
  variables r = pre ++ v :: post →
  v_key v ∉ map v_key post →
  key_pattern (v_key v) = true →
  v_required v = true →
  forallb is_space ws1 = true → forallb is_space ws2 = true →
  ∃ text,
    text ≠ []
    ∧ renderTemplate (render_context r pn overrides)
                     (placeholder ws1 (v_key v) ws2 ++ rest)
      = text ++ renderTemplate (render_context r pn overrides) rest.
Proof.
  intros Hnil Hvars Hpost Hk Hreq H1 H2.
  assert (Hv : v ∈ variables r).
  { rewrite Hvars. apply elem_of_app. right. apply list_elem_of_here. }
  pose proof (proj1 (getMissingRequired_nil r overrides) Hnil v Hv Hreq) as Hf.
  exists (ToString (bound_value overrides v)). split.
  - by apply ToString_nonempty.
  - rewrite renderTemplate_placeholder by (done || by apply key_pattern_is_key).
    unfold replacer, js_get.
    by rewrite (render_context_last r pn overrides pre post v).
Qed.

Lemma required_placeholder_nonempty_witness :
  ∃ text,
    text ≠ []
    ∧ renderTemplate
        (render_context dbpass_recipe (lit "proj")
                        {[ lit "DB_PASS" := VStr (lit "pw") ]})
        (lit "{{DB_PASS}}@db")
      = text ++ renderTemplate
                  (render_context dbpass_recipe (lit "proj")
                                  {[ lit "DB_PASS" := VStr (lit "pw") ]})
                  (lit "@db").
Proof.
  apply (required_placeholder_nonempty dbpass_recipe (lit "proj")
           {[ lit "DB_PASS" := VStr (lit "pw") ]} [] []
           (example_variable "DB_PASS" "" true None) [] [] (lit "@db")).
  - vm_compute. reflexivity.
  - reflexivity.
  - vm_compute. apply not_elem_of_nil.
  - reflexivity.
  - reflexivity.
  - reflexivity.
  - reflexivity.
Defined.

Lemma fold_js_set_dom {A} (kf : A → str) (vf : A → jsval) l o :
  Forall (λ a, kf a ≠ lit "__proto__") l →
  dom (fold_left (λ o a, js_set o (kf a) (vf a)) l o)
  = list_to_set (map kf l) ∪ dom o.
Proof.
  intros Hl. revert o. induction Hl as [|a l Ha Hl IH]; intros o; simpl.
  - by rewrite (left_id_L ∅ (∪)).
  - rewrite IH. unfold js_set. rewrite decide_False by done.
    rewrite dom_insert_L.
    by rewrite (assoc_L (∪)), (comm_L (∪) _ {[kf a]}).
Qed.

(** X15. For a recipe whose variable keys match the schema's pattern, the
    keys of the mapping that [redactVariables] returns are exactly the
    declared variable keys: an override for a key the recipe does not
    declare is never stored. *)
Theorem redactVariables_dom (r : Recipe) (overrides : gmap str jsval) :
  RecipeVariableSchema_keys r = true →
  dom (redactVariables r overrides) = list_to_set (map v_key (variables r)).
Proof.
  intros Hkeys. rewrite redactVariables_fold, fold_js_set_dom.
  - by rewrite dom_empty_L, (right_id_L ∅ (∪)).
  - apply Forall_forall. intros v Hv.
    apply key_pattern_not_proto.
    by apply (forallb_elem (λ v, key_pattern (v_key v)) _ _ Hkeys).
Qed.

Lemma redactVariables_dom_witness :
  dom (redactVariables tag_recipe
         {[ lit "UNDECLARED" := VStr (lit "x"); lit "TAG" := VStr (lit "1") ]})
  = {[ lit "TAG" ]}.
Proof.
  etrans.
  - apply (redactVariables_dom tag_recipe). reflexivity.
  - simpl. by rewrite (right_id_L ∅ (∪)).
Defined.

(** * Further properties of the generation index *)

Lemma take_app_take {A} n (a b : list A) :
  take n (a ++ take n b) = take n (a ++ b).
Proof. rewrite !take_app, take_take. f_equal. f_equal. lia. Qed.

(** X16. After any non-empty series of appends, whatever the index file
    held before, the index lists the appended records newest first, followed
    by the records it held, cut to the first 100 entries. *)
Theorem appendGeneratedRecord_series (records : list GeneratedRecord)
    (f : index_file) :
  records ≠ [] →
  readGeneratedIndex (fold_left (λ f r, appendGeneratedRecord r f) records f)
  = take 100 (rev records ++ readGeneratedIndex f).
Proof.
  revert f. induction records as [|r records IH]; intros f Hne; [done|].
  cbn [fold_left]. destruct records as [|r' records].
  - reflexivity.
  - rewrite IH by done.
    change (readGeneratedIndex (appendGeneratedRecord r f))
      with (take 100 (r :: readGeneratedIndex f)).
    rewrite take_app_take.
    change (rev (r :: r' :: records)) with (rev (r' :: records) ++ [r]).
    by rewrite <- app_assoc.
Qed.

Lemma appendGeneratedRecord_series_witness :
  let rec1 := {| g_projectName := lit "one"; g_recipeId := lit "r";
                 g_createdAt := lit "t1"; g_path := lit "/root/gen/one";
                 g_variables := ∅ |} in
  let rec2 := {| g_projectName := lit "two"; g_recipeId := lit "r";
                 g_createdAt := lit "t2"; g_path := lit "/root/gen/two";
                 g_variables := ∅ |} in
  readGeneratedIndex
    (appendGeneratedRecord rec2 (appendGeneratedRecord rec1 NotAnArray))
  = [rec2; rec1].
Proof.
  intros rec1 rec2.
  apply (appendGeneratedRecord_series [rec1; rec2] NotAnArray). done.
Defined.

(** * Generated files on disk *)

Lemma utf8_text_no_surrogates s : no_surrogates s = true → utf8_text s = s.
Proof.
  induction s as [|c s IH]; [done|]. simpl.
  intros [[Hh Hl]%andb_true_iff Hs]%andb_true_iff.
  apply negb_true_iff in Hh, Hl. rewrite Hh, Hl. by rewrite IH.
Qed.

(** The round trip commutes with appending text that begins with a code
    unit other than a low surrogate and has no surrogates itself. *)
Lemma utf8_text_app x a :
  no_surrogates a = true → utf8_text (x ++ a) = utf8_text x ++ a.
Proof.
  intros Ha.
  assert (G : ∀ n x, (length x ≤ n)%nat → utf8_text (x ++ a) = utf8_text x ++ a).
  { clear x. induction n as [|n IH]; intros x Hlen.
    - destruct x; [|simpl in Hlen; lia]. by apply utf8_text_no_surrogates.
    - destruct x as [|c x]; [by apply utf8_text_no_surrogates|].
      simpl in Hlen. cbn [app utf8_text].
      destruct (is_high_surrogate c).
      + destruct x as [|c' x].
        * cbn [app]. destruct a as [|c' a]; [done|].
          simpl in Ha. apply andb_true_iff in Ha as [[_ Hl]%andb_true_iff Ha].
          apply negb_true_iff in Hl. rewrite Hl.
          change (c' :: a) with ([] ++ c' :: a).
          rewrite (IH []) by (simpl; lia). done.
        * cbn [app]. simpl in Hlen. destruct (is_low_surrogate c').
          -- by rewrite IH by lia.
          -- change (c' :: x ++ a) with ((c' :: x) ++ a).
             by rewrite IH by (simpl; lia).
      + destruct (is_low_surrogate c); by rewrite IH by lia. }
  by apply (G (length x)).
Qed.

Lemma join_slash_snoc l a :
  l ≠ [] → join_slash (l ++ [a]) = join_slash l ++ slash :: a.
Proof.
  induction l as [|b l IH]; [done|]. intros _.
  destruct l as [|c l]; [done|].
  change (b ++ slash :: join_slash ((c :: l) ++ [a])
          = (b ++ slash :: join_slash (c :: l)) ++ slash :: a).
  rewrite IH by done. by rewrite <- app_assoc.
Qed.

Lemma apply_ops_untouched ops files k :
  Forall (λ w, utf8_text w.1 ≠ k) (writes ops) →
  apply_ops ops files !! k = files !! k.
Proof.
  unfold apply_ops. revert files.
  induction ops as [|[dir|f d] ops IH]; intros files Hops; simpl in *.
  - done.
  - by apply IH.
  - apply Forall_cons in Hops as [Hf Hops].
    rewrite IH by done. by apply lookup_insert_ne.
Qed.

Lemma apply_ops_cons op ops files :
  apply_ops (op :: ops) files = apply_ops ops (apply_op files op).
Proof. reflexivity. Qed.

Lemma abs_path_snoc l name :
  l ≠ [] → abs_path (l ++ [name]) = abs_path l ++ slash :: name.
Proof. intros Hl. unfold abs_path. by rewrite join_slash_snoc. Qed.

Lemma spares_writes plan paths w :
  spares plan paths = true →
  w ∈ writes (for_of plan write_planned).1 →
  utf8_text w.1 ∉ map utf8_text paths.
Proof.
  intros Hsp Hw. apply writes_planned_accepted in Hw as (e & He & Heq).
  apply list_elem_of_In in He.
  pose proof (proj1 (forallb_forall _ plan) Hsp e He) as H. simpl in H.
  rewrite Heq in H. apply negb_true_iff in H. by apply bool_decide_eq_false in H.
Qed.

(** X17. With the generation root a normalised absolute path and a project
    name matching its pattern, reading a project back after
    [generateProject] ran gives the rendered compose, env and readme texts
    as they come back from disk (unpaired surrogates replaced by U+FFFD),
    whether the call returned or threw, provided no accepted seed or extra
    file took the path of one of the three files. *)
Theorem readGeneratedFiles_after_generateProject
    (cwd : str) (segs : list str) (r : Recipe) (pn : str)
    (overrides : gmap str jsval) (files : gmap str str) :
  forallb clean_segment segs = true →
  projectName_pattern pn = true →
  let context := render_context r pn overrides in
  spares (planned_files cwd context (abs_path (segs ++ [pn])) r)
         [ abs_path (segs ++ [pn; lit "docker-compose.yml"]);
           abs_path (segs ++ [pn; lit ".env"]);
           abs_path (segs ++ [pn; lit "README.md"]) ] = true →
  readGeneratedFiles (abs_path segs)
    (apply_ops (generateProject cwd (abs_path segs) r pn overrides).1 files) pn
  = Some {| gf_compose := utf8_text (renderTemplate context (composeTemplate r));
            gf_env := utf8_text (renderTemplate context (envTemplate r));
            gf_readme := utf8_text (renderTemplate context (readmeTemplate r)) |}.
Proof.
  intros Hsegs Hpn context Hspares.
  pose proof (projectName_pattern_clean _ Hpn) as Hclean.
  set (pd := abs_path (segs ++ [pn])) in *.
  assert (Hpd : path_join [abs_path segs; pn] = pd)
    by by apply path_join_abs_path.
  assert (Hfile : ∀ name : string, clean_segment (lit name) = true →
            path_join [pd; lit name] = abs_path (segs ++ [pn; lit name])).
  { intros name Hname. unfold pd. rewrite path_join_abs_path.
    - by rewrite <- app_assoc.
    - rewrite forallb_app, Hsegs. simpl. by rewrite Hclean.
    - done. }
  assert (Hutf : ∀ name : string, no_surrogates (slash :: lit name) = true →
            utf8_text (abs_path (segs ++ [pn; lit name]))
            = utf8_text pd ++ slash :: lit name).
  { intros name Hname.
    change (segs ++ [pn; lit name]) with (segs ++ [pn] ++ [lit name]).
    rewrite app_assoc, abs_path_snoc by by destruct segs.
    by apply utf8_text_app. }
  destruct (generateProject_run cwd (abs_path segs) r pn overrides)
    as (more & Hops & Hmore & _).
  rewrite Hpd in Hops, Hmore. rewrite !Hfile in Hops by done.
  fold context in Hops, Hmore.
  assert (Hrest : ∀ k,
            k ∈ map utf8_text
                  [ abs_path (segs ++ [pn; lit "docker-compose.yml"]);
                    abs_path (segs ++ [pn; lit ".env"]);
                    abs_path (segs ++ [pn; lit "README.md"]) ] →
            ∀ fs, apply_ops more fs !! k = fs !! k).
  { intros k Hk fs. apply apply_ops_untouched, Forall_forall.
    intros w Hw <-. rewrite Hmore in Hw.
    by apply (spares_writes _ _ w Hspares). }
  unfold readGeneratedFiles, readFile. rewrite Hpd, !Hfile by done.
  rewrite Hops, !apply_ops_cons. cbn [apply_op].
  rewrite !Hrest by (simpl; rewrite !elem_of_cons; tauto).
  rewrite !Hutf by done.
  set (kc := utf8_text pd ++ slash :: lit "docker-compose.yml").
  set (ke := utf8_text pd ++ slash :: lit ".env").
  set (kr := utf8_text pd ++ slash :: lit "README.md").
  assert (Hce : kc ≠ ke) by (intros H%app_inv_head; vm_compute in H; discriminate H).
  assert (Hcr : kc ≠ kr) by (intros H%app_inv_head; vm_compute in H; discriminate H).
  assert (Her : ke ≠ kr) by (intros H%app_inv_head; vm_compute in H; discriminate H).
  rewrite (lookup_insert_ne _ kr kc), (lookup_insert_ne _ ke kc) by done.
  rewrite (lookup_insert_eq _ kc). simpl.
  rewrite (lookup_insert_ne _ kr ke) by done.
  rewrite (lookup_insert_eq _ ke). simpl.
  by rewrite (lookup_insert_eq _ kr).
Qed.

Lemma readGeneratedFiles_after_generateProject_witness :
  readGeneratedFiles (lit "/root/gen")
    (apply_ops (generateProject (lit "/srv/app") (lit "/root/gen")
                  aborting_recipe (lit "proj") ∅).1 ∅)
    (lit "proj")
  = Some {| gf_compose := lit "image: latest"; gf_env := lit "NAME=proj";
            gf_readme := lit "# proj" |}.
Proof.
  etrans.
  - apply (readGeneratedFiles_after_generateProject (lit "/srv/app")
             [lit "root"; lit "gen"] aborting_recipe (lit "proj") ∅ ∅).
    + reflexivity.
    + reflexivity.
    + vm_compute. reflexivity.
  - vm_compute. reflexivity.
Defined.

Lemma ends_with_slash_free x name :
  name ≠ [] → forallb (λ c, negb (c =? slash)) name = true →
  ends_with_slash (x ++ name) = false.
Proof.
  intros Hne Hfree. unfold ends_with_slash. rewrite rev_app_distr.
  destruct (rev name) as [|c r] eqn:E.
  - apply (f_equal (@rev N)) in E. rewrite rev_involutive in E. by subst name.
  - simpl. apply negb_true_iff.
    apply (forallb_elem _ _ c Hfree).
    apply list_elem_of_In, in_rev. rewrite E. by left.
Qed.

Lemma path_normalize_absolute p out :
  is_absolute p = true → ends_with_slash p = false →
  normalize_segments false p = out →
  path_normalize p = abs_path out.
Proof.
  intros Habs Hend Hout. pose proof (is_absolute_nonempty _ Habs) as Hne.
  unfold path_normalize. rewrite decide_False by done.
  rewrite Habs, Hend. cbn [negb]. unfold normalizeString. rewrite Hout.
  unfold abs_path. case_decide as Hn; [by rewrite Hn|done].
Qed.

Lemma join_slash_ends segs x :
  segs ≠ [] →
  Forall (λ seg, seg ≠ [] ∧ forallb (λ c, negb (c =? slash)) seg = true) segs →
  ends_with_slash (x ++ join_slash segs) = false.
Proof.
  intros Hne Hall.
  destruct (exists_last Hne) as (init & last & ->).
  apply Forall_app in Hall as [_ Hlast].
  apply Forall_cons in Hlast as [[Hl1 Hl2] _].
  destruct (join_slash_prefix_last init last) as (y & ->).
  rewrite app_assoc. by apply ends_with_slash_free.
Qed.

Lemma join_slash_ends_sep segs x :
  segs ≠ [] →
  Forall (λ seg, seg ≠ [] ∧ forallb (λ c, negb (c =? slash)) seg = true) segs →
  ends_with_slash (x ++ slash :: join_slash segs) = false.
Proof.
  intros Hne Hall.
  replace (x ++ slash :: join_slash segs) with ((x ++ [slash]) ++ join_slash segs)
    by by rewrite <- app_assoc.
  by apply join_slash_ends.
Qed.

Lemma clean_segments_free segs :
  forallb clean_segment segs = true →
  Forall (λ seg, seg ≠ [] ∧ forallb (λ c, negb (c =? slash)) seg = true) segs.
Proof.
  intros H. apply Forall_forall. intros seg Hseg%list_elem_of_In.
  pose proof (proj1 (forallb_forall _ segs) H seg Hseg) as Hc.
  split; [by apply clean_segment_nonempty|by apply clean_segment_free].
Qed.

(** Joining clean segments onto a normalised absolute path appends them. *)
Lemma path_join_abs_path_many segs tsegs :
  forallb clean_segment segs = true → forallb clean_segment tsegs = true →
  path_join [abs_path segs; join_slash tsegs] = abs_path (segs ++ tsegs).
Proof.
  intros Hsegs Htsegs. unfold path_join.
  rewrite filter_cons. rewrite decide_True by done.
  destruct tsegs as [|t tsegs].
  - cbn [join_slash]. rewrite filter_cons, filter_nil.
    rewrite decide_False by (intros H; by apply H). cbn [join_slash].
    rewrite app_nil_r.
    destruct segs as [|s segs]; [reflexivity|].
    apply path_normalize_absolute; [done| |by apply normalize_segments_abs_path].
    apply (join_slash_ends (s :: segs) [slash]); [done|].
    by apply clean_segments_free.
  - pose proof Htsegs as Ht. simpl in Ht. apply andb_true_iff in Ht as [Ht _].
    destruct (join_slash_first t tsegs Ht) as [Hjne _].
    rewrite filter_cons, filter_nil. rewrite decide_True by done.
    change (join_slash [abs_path segs; join_slash (t :: tsegs)])
      with (abs_path segs ++ slash :: join_slash (t :: tsegs)).
    apply path_normalize_absolute; [done| |].
    + apply join_slash_ends_sep; [done|]. by apply clean_segments_free.
    + unfold normalize_segments.
      rewrite split_slash_app, (split_join_clean (t :: tsegs)) by done.
      rewrite fold_left_app, fold_push_abs_path by done.
      rewrite (fold_push_clean false (t :: tsegs)) by done.
      by rewrite rev_app_distr, !rev_involutive.
Qed.

Lemma path_join_abs_path_up segs g tsegs :
  forallb clean_segment segs = true → clean_segment g = true →
  forallb clean_segment tsegs = true →
  path_join [abs_path (segs ++ [g]); join_slash (lit ".." :: tsegs)]
  = abs_path (segs ++ tsegs).
Proof.
  intros Hsegs Hg Htsegs.
  assert (Hsg : forallb clean_segment (segs ++ [g]) = true).
  { rewrite forallb_app, Hsegs. simpl. by rewrite Hg. }
  assert (Hfree : Forall (λ seg, seg ≠ []
                     ∧ forallb (λ c, negb (c =? slash)) seg = true)
                    (lit ".." :: tsegs)).
  { apply Forall_cons. split; [done|]. by apply clean_segments_free. }
  assert (Hjne : join_slash (lit ".." :: tsegs) ≠ []) by by destruct tsegs.
  unfold path_join. rewrite !filter_cons, filter_nil.
  rewrite decide_True by done. rewrite decide_True by done.
  change (join_slash [abs_path (segs ++ [g]); join_slash (lit ".." :: tsegs)])
    with (abs_path (segs ++ [g]) ++ slash :: join_slash (lit ".." :: tsegs)).
  apply path_normalize_absolute; [done| |].
  - by apply join_slash_ends_sep.
  - unfold normalize_segments.
    rewrite split_slash_app, (split_join_free (lit ".." :: tsegs)).
    + rewrite fold_left_app, fold_push_abs_path by done.
      cbn [fold_left]. rewrite push_segment_dotdot.
      * rewrite rev_app_distr. cbn [rev app drop].
        rewrite fold_push_clean by done.
        rewrite drop_0. by rewrite rev_app_distr, !rev_involutive.
      * apply forallb_forall. intros x Hx%in_rev.
        by apply (proj1 (forallb_forall _ _) Hsg).
    + eapply Forall_impl; [exact Hfree|]. by intros seg [_ ?].
Qed.

Lemma abs_path_within segs segs' :
  forallb clean_segment segs = true → forallb clean_segment segs' = true →
  split_slash (abs_path segs) `prefix_of` split_slash (abs_path segs') →
  segs `prefix_of` segs'.
Proof.
  intros Hs Hs' Hpre.
  destruct segs as [|x segs]; [apply prefix_nil|].
  destruct segs' as [|y segs'].
  - exfalso. change (abs_path []) with [slash] in Hpre.
    change (abs_path (x :: segs)) with ([] ++ slash :: join_slash (x :: segs)) in Hpre.
    rewrite split_slash_app, (split_join_clean (x :: segs)) in Hpre by done.
    destruct Hpre as [k Hk]. simpl in Hk. injection Hk as Hk.
    simpl in Hs. apply andb_true_iff in Hs as [Hx _].
    by subst x.
  - change (abs_path (x :: segs)) with ([] ++ slash :: join_slash (x :: segs)) in Hpre.
    change (abs_path (y :: segs')) with ([] ++ slash :: join_slash (y :: segs')) in Hpre.
    rewrite !split_slash_app in Hpre.
    rewrite (split_join_clean (x :: segs)), (split_join_clean (y :: segs')) in Hpre
      by done.
    destruct Hpre as [k Hk]. simpl in Hk. injection Hk as -> ->.
    by exists k.
Qed.

(** X18. [readGeneratedFiles] does not confine the project name. With the
    generation root [R/g], a name that begins with a [..] segment reads the
    three files from the directory that the rest of the name names under
    [R]. What lies under [R] along a path that does not begin with [g] is
    outside the generation root: so are that directory and the three files
    read, unless the rest of the name leads back through [g]. *)
Theorem readGeneratedFiles_not_confined (segs : list str) (g : str)
    (tsegs : list str) (files : gmap str str) :
  forallb clean_segment segs = true → clean_segment g = true →
  forallb clean_segment tsegs = true →
  let root := abs_path (segs ++ [g]) in
  let name := join_slash (lit ".." :: tsegs) in
  let dir := abs_path (segs ++ tsegs) in
  readGeneratedFiles root files name
  = readGeneratedFiles (abs_path segs) files (join_slash tsegs)
  ∧ path_join [root; name] = dir
  ∧ readGeneratedFiles root files name
    = (compose ← readFile files (abs_path (segs ++ tsegs ++ [lit "docker-compose.yml"]));
       env ← readFile files (abs_path (segs ++ tsegs ++ [lit ".env"]));
       readme ← readFile files (abs_path (segs ++ tsegs ++ [lit "README.md"]));
       Some {| gf_compose := compose; gf_env := env; gf_readme := readme |})
  ∧ (∀ more, forallb clean_segment more = true →
             head (tsegs ++ more) ≠ Some g →
             within root (abs_path (segs ++ tsegs ++ more)) = false).
Proof.
  intros Hsegs Hg Htsegs root name dir.
  assert (Hst : forallb clean_segment (segs ++ tsegs) = true)
    by by rewrite forallb_app, Hsegs.
  assert (Hsg : forallb clean_segment (segs ++ [g]) = true).
  { rewrite forallb_app, Hsegs. simpl. by rewrite Hg. }
  assert (Hdir : path_join [root; name] = dir)
    by by apply path_join_abs_path_up.
  split; [|split; [exact Hdir|split]].
  - unfold readGeneratedFiles, root, name.
    by rewrite path_join_abs_path_up, path_join_abs_path_many.
  - unfold readGeneratedFiles. rewrite Hdir. unfold dir.
    rewrite !path_join_abs_path by done.
    by rewrite <- !app_assoc.
  - intros more Hmore Hhead. unfold within. apply bool_decide_eq_false.
    intros Hpre. apply abs_path_within in Hpre; [|done|].
    + destruct Hpre as [k Hk]. rewrite <- !app_assoc in Hk.
      apply app_inv_head in Hk. rewrite Hk in Hhead. by apply Hhead.
    + by rewrite !forallb_app, Hsegs, Htsegs.
Qed.

Lemma readGeneratedFiles_not_confined_witness :
  readGeneratedFiles (lit "/srv/app/generated")
    {[ lit "/srv/app/secrets/docker-compose.yml" := lit "c";
       lit "/srv/app/secrets/.env" := lit "TOKEN=1";
       lit "/srv/app/secrets/README.md" := lit "r" ]}
    (lit "../secrets")
  = Some {| gf_compose := lit "c"; gf_env := lit "TOKEN=1"; gf_readme := lit "r" |}
  ∧ within (lit "/srv/app/generated") (lit "/srv/app/secrets") = false
  ∧ within (lit "/srv/app/generated") (lit "/srv/app/secrets/.env") = false.
Proof.
  destruct (readGeneratedFiles_not_confined [lit "srv"; lit "app"]
              (lit "generated") [lit "secrets"]
              {[ lit "/srv/app/secrets/docker-compose.yml" := lit "c";
                 lit "/srv/app/secrets/.env" := lit "TOKEN=1";
                 lit "/srv/app/secrets/README.md" := lit "r" ]})
    as (Hread & _ & _ & Hout); [reflexivity..|].
  split; [|split].
  - etrans; [exact Hread|]. vm_compute. reflexivity.
  - apply (Hout []); [reflexivity|discriminate].
  - apply (Hout [lit ".env"]); [reflexivity|discriminate].
Defined.

(** * The handler of [POST /api/generate] *)

Lemma parsed_variables_lookup q k :
  key_pattern k = true →
  parsed_variables q !! k = VStr <$> q_variables q !! k.
Proof.
  intros Hk. unfold parsed_variables.
  rewrite lookup_delete_ne by (symmetry; by apply key_pattern_not_proto).
  apply lookup_fmap.
Qed.

Lemma redactVariables_last r overrides pre v post :
  variables r = pre ++ v :: post →
  v_key v ∉ map v_key post →
  key_pattern (v_key v) = true →
  redactVariables r overrides !! v_key v = Some (redacted_value overrides v).
Proof.
  intros Hvars Hpost Hk. rewrite redactVariables_fold, Hvars.
  apply (fold_set_last v_key (redacted_value overrides) js_set
           (λ k, k ≠ lit "__proto__")); try done.
  - apply js_set_eq.
  - apply js_set_ne.
  - by apply key_pattern_not_proto.
Qed.

(** X19. The handler performs a file operation only for a request that
    passes [GenerateRequestSchema] and names a recipe of the catalogue for
    which no required variable is missing; with the catalogue's recipes
    passing the key pattern, every required variable of that recipe then has
    a non-empty value, taken from the request if the request has an entry
    for its key and from the default otherwise. *)
Theorem generate_handler_writes_only_when_complete
    (cwd generatedDir : str) (catalog : str → option Recipe) (now : str)
    (q : GenerateRequest) :
  (∀ id recipe, catalog id = Some recipe → RecipeVariableSchema_keys recipe = true) →
  (generate_handler cwd generatedDir catalog now q).1.1 ≠ [] →
  GenerateRequestSchema q = true
  ∧ ∃ recipe,
      catalog (q_recipeId q) = Some recipe
      ∧ ∀ v, v ∈ variables recipe → v_required v = true →
             match q_variables q !! v_key v with
             | Some s => s
             | None => v_default v
             end ≠ [].
Proof.
  intros Hcat. unfold generate_handler.
  destruct (GenerateRequestSchema q); [|done]. simpl negb. cbv iota.
  destruct (catalog (q_recipeId q)) as [recipe|] eqn:Hrecipe; [|done].
  destruct (getMissingRequired recipe (parsed_variables q)) as [|m ms] eqn:Hmiss;
    [|done].
  intros _. split; [done|]. exists recipe. split; [done|].
  intros v Hv Hreq.
  pose proof (Hcat _ _ Hrecipe) as Hkeys.
  pose proof (forallb_elem _ _ _ Hkeys Hv) as Hk. simpl in Hk.
  pose proof (proj1 (getMissingRequired_nil recipe _) Hmiss v Hv Hreq) as Hf.
  rewrite bound_value_key_pattern, parsed_variables_lookup in Hf by done.
  destruct (q_variables q !! v_key v) as [s|]; cbn [fmap option_fmap option_map] in Hf;
    intros E; by rewrite E in Hf.
Qed.

Lemma generate_handler_writes_only_when_complete_witness :
  let q := {| q_recipeId := lit "db"; q_projectName := lit "proj";
              q_variables := {[ lit "DB_PASS" := lit "pw" ]} |} in
  GenerateRequestSchema q = true
  ∧ ∃ recipe,
      (λ _, Some dbpass_recipe) (q_recipeId q) = Some recipe
      ∧ ∀ v, v ∈ variables recipe → v_required v = true →
             match q_variables q !! v_key v with
             | Some s => s
             | None => v_default v
             end ≠ [].
Proof.
  intros q.
  apply (generate_handler_writes_only_when_complete (lit "/srv/app")
           (lit "/root/gen") (λ _, Some dbpass_recipe) (lit "t") q).
  - by intros id recipe [= <-].
  - vm_compute. discriminate.
Defined.

(** A request that leaves required variables without a value is answered
    with the keys of all of them, in declared order, and nothing is
    written. *)
Lemma generate_handler_missing (cwd generatedDir : str)
    (catalog : str → option Recipe) (now : str) (q : GenerateRequest) recipe :
  GenerateRequestSchema q = true →
  catalog (q_recipeId q) = Some recipe →
  getMissingRequired recipe (parsed_variables q) ≠ [] →
  generate_handler cwd generatedDir catalog now q
  = ([], None, MissingRequired (getMissingRequired recipe (parsed_variables q))).
Proof.
  intros Hq Hrecipe Hmissing. unfold generate_handler.
  rewrite Hq, Hrecipe. simpl negb. cbv iota.
  by destruct (getMissingRequired recipe (parsed_variables q)).
Qed.

Example generate_handler_missing_two :
  let recipe := example_recipe [example_variable "DB_USER" "" true None;
                                example_variable "TAG" "latest" true None;
                                example_variable "DB_PASS" "" true (Some true)]
                               "image: postgres" None None in
  generate_handler (lit "/srv/app") (lit "/root/gen") (λ _, Some recipe) (lit "t")
    {| q_recipeId := lit "db"; q_projectName := lit "proj"; q_variables := ∅ |}
  = ([], None, MissingRequired [lit "DB_USER"; lit "DB_PASS"]).
Proof. vm_compute. reflexivity. Qed.

(** X20. A call that fails in the sandbox is not undone: the handler
    answers with the sandbox's error and hands no record to the index, yet
    the project directory and the three main files have been written. *)
Theorem generate_handler_failure_keeps_files
    (cwd generatedDir : str) (catalog : str → option Recipe) (now : str)
    (q : GenerateRequest) (message : str) :
  (generate_handler cwd generatedDir catalog now q).2 = Failed message →
  (generate_handler cwd generatedDir catalog now q).1.2 = None
  ∧ ∃ recipe more,
      catalog (q_recipeId q) = Some recipe
      ∧ let context := render_context recipe (q_projectName q) (parsed_variables q) in
        let pd := path_join [generatedDir; q_projectName q] in
        (generate_handler cwd generatedDir catalog now q).1.1
        = Mkdir pd
          :: WriteFile (path_join [pd; lit "docker-compose.yml"])
                       (renderTemplate context (composeTemplate recipe))
          :: WriteFile (path_join [pd; lit ".env"])
                       (renderTemplate context (envTemplate recipe))
          :: WriteFile (path_join [pd; lit "README.md"])
                       (renderTemplate context (readmeTemplate recipe))
          :: more.
Proof.
  unfold generate_handler.
  destruct (GenerateRequestSchema q); [|done]. simpl negb. cbv iota.
  destruct (catalog (q_recipeId q)) as [recipe|] eqn:Hrecipe; [|done].
  destruct (getMissingRequired recipe (parsed_variables q)) as [|m ms]; [|done].
  destruct (generateProject_run cwd generatedDir recipe (q_projectName q)
              (parsed_variables q)) as (more & Hops & _ & _).
  destruct (generateProject cwd generatedDir recipe (q_projectName q)
              (parsed_variables q)) as [ops [result|e]]; [done|].
  simpl in *. intros _. split; [done|]. by exists recipe, more.
Qed.

Lemma generate_handler_failure_keeps_files_witness :
  let run := generate_handler (lit "/srv/app") (lit "/root/gen")
               (λ _, Some aborting_recipe) (lit "t")
               {| q_recipeId := lit "r"; q_projectName := lit "proj";
                  q_variables := ∅ |} in
  run.2 = Failed (lit "Invalid file path: /etc/passwd") ∧ run.1.2 = None.
Proof.
  intros run.
  assert (H : run.2 = Failed (lit "Invalid file path: /etc/passwd"))
    by (vm_compute; reflexivity).
  split; [exact H|].
  by destruct (generate_handler_failure_keeps_files _ _ _ _ _ _ H) as [? _].
Defined.

(** X21. When the handler hands a record to the index, with the generation
    root a normalised absolute path and the catalogue's recipes passing the
    key pattern, the record names the project and the recipe, its path is
    [<root>/<projectName>], and its variables are the declared keys and
    nothing else: ["***"] for a variable whose last declaration is flagged
    secret, and otherwise the request's value for the key, or the default
    when the request has none. *)
Theorem generate_handler_record
    (cwd : str) (segs : list str) (catalog : str → option Recipe) (now : str)
    (q : GenerateRequest) (record : GeneratedRecord) :
  (∀ id recipe, catalog id = Some recipe → RecipeVariableSchema_keys recipe = true) →
  forallb clean_segment segs = true →
  (generate_handler cwd (abs_path segs) catalog now q).1.2 = Some record →
  ∃ recipe,
    catalog (q_recipeId q) = Some recipe
    ∧ g_projectName record = q_projectName q
    ∧ g_recipeId record = r_id recipe
    ∧ g_createdAt record = now
    ∧ g_path record = abs_path (segs ++ [q_projectName q])
    ∧ dom (g_variables record) = list_to_set (map v_key (variables recipe))
    ∧ ∀ pre v post,
        variables recipe = pre ++ v :: post →
        v_key v ∉ map v_key post →
        g_variables record !! v_key v
        = Some (VStr (if is_secret v then lit "***"
                      else match q_variables q !! v_key v with
                           | Some s => s
                           | None => v_default v
                           end)).
Proof.
  intros Hcat Hsegs. unfold generate_handler.
  destruct (GenerateRequestSchema q) eqn:Hschema; [|done]. simpl negb. cbv iota.
  apply andb_true_iff in Hschema as [_ Hpn].
  destruct (catalog (q_recipeId q)) as [recipe|] eqn:Hrecipe; [|done].
  pose proof (Hcat _ _ Hrecipe) as Hkeys.
  destruct (getMissingRequired recipe (parsed_variables q)) as [|m ms]; [|done].
  destruct (generateProject_run cwd (abs_path segs) recipe (q_projectName q)
              (parsed_variables q)) as (more & _ & _ & Hend).
  destruct (generateProject cwd (abs_path segs) recipe (q_projectName q)
              (parsed_variables q)) as [ops [result|e]]; [|done].
  simpl in *. intros [= <-]. simpl.
  exists recipe. repeat split.
  - destruct (for_of _ _).2; [|done]. injection Hend as ->. simpl.
    apply path_join_abs_path; [done|]. by apply projectName_pattern_clean.
  - rewrite redactVariables_fold, fold_js_set_dom.
    + by rewrite dom_empty_L, (right_id_L ∅ (∪)).
    + apply Forall_forall. intros v Hv. apply key_pattern_not_proto.
      by apply (forallb_elem (λ v, key_pattern (v_key v)) _ _ Hkeys).
  - intros pre v post Hvars Hpost.
    assert (Hv : v ∈ variables recipe).
    { rewrite Hvars. apply elem_of_app. right. apply list_elem_of_here. }
    pose proof (forallb_elem _ _ _ Hkeys Hv) as Hk. simpl in Hk.
    rewrite (redactVariables_last recipe _ pre v post) by done.
    unfold redacted_value. destruct (is_secret v); [done|].
    rewrite bound_value_key_pattern, parsed_variables_lookup by done.
    by destruct (q_variables q !! v_key v).
Qed.

Lemma generate_handler_record_witness :
  let recipe := example_recipe [example_variable "DB_PASS" "" true (Some true);
                                example_variable "TAG" "latest" false None]
                               "image: {{TAG}}" None None in
  let q := {| q_recipeId := lit "db"; q_projectName := lit "proj";
              q_variables := {[ lit "DB_PASS" := lit "s3cr3t";
                                lit "EXTRA" := lit "x" ]} |} in
  ∃ record,
    (generate_handler (lit "/srv/app") (lit "/root/gen") (λ _, Some recipe)
                      (lit "t") q).1.2 = Some record
    ∧ g_path record = lit "/root/gen/proj"
    ∧ g_variables record !! lit "DB_PASS" = Some (VStr (lit "***"))
    ∧ g_variables record !! lit "EXTRA" = None.
Proof.
  intros recipe q.
  destruct (generate_handler (lit "/srv/app") (lit "/root/gen") (λ _, Some recipe)
              (lit "t") q).1.2 as [record|] eqn:Hrec; [|by vm_compute in Hrec].
  exists record. split; [done|].
  destruct (generate_handler_record (lit "/srv/app") [lit "root"; lit "gen"]
              (λ _, Some recipe) (lit "t") q record)
    as (recipe' & Hcat & _ & _ & _ & Hpath & Hdom & Hvars).
  - by intros id r [= <-].
  - reflexivity.
  - exact Hrec.
  - injection Hcat as <-. split; [exact Hpath|]. split.
    + apply (Hvars [] (example_variable "DB_PASS" "" true (Some true))
                   [example_variable "TAG" "latest" false None]).
      * reflexivity.
      * vm_compute. intros [H|H]%elem_of_cons; [discriminate H|].
        by apply elem_of_nil in H.
    + apply not_elem_of_dom. rewrite Hdom, elem_of_list_to_set.
      intros H. vm_compute in H.
      repeat (apply elem_of_cons in H as [H|H]; [discriminate H|]).
      by apply elem_of_nil in H.
Defined.

(** * Identifiers and recipe files *)

Lemma id_groups_chars b s :
  id_groups b s = true →
  forallb (λ x, is_lower x || is_digit x || (x =? 45)) s = true.
Proof.
  revert b. induction s as [|c s IH]; intros b; [done|]. simpl.
  destruct (is_lower c || is_digit c) eqn:E; simpl.
  - by apply IH.
  - destruct (c =? 45); [|done]. simpl.
    intros [_ H]%andb_true_iff. by apply (IH false).
Qed.

(** X22. Every text that the schema accepts as a recipe id is also
    accepted as a project name. *)
Theorem id_pattern_projectName_pattern (s : str) :
  id_pattern s = true → projectName_pattern s = true.
Proof.
  unfold id_pattern. destruct s as [|c s]; [done|]. simpl.
  destruct (is_lower c || is_digit c) eqn:E; simpl.
  - by apply id_groups_chars.
  - by destruct (c =? 45).
Qed.

Lemma id_pattern_projectName_pattern_witness :
  projectName_pattern (lit "postgres-16-alpine") = true.
Proof. apply id_pattern_projectName_pattern. reflexivity. Defined.

Lemma yml_name_clean name :
  forallb (λ c, negb (c =? slash)) name = true →
  clean_segment (name ++ lit ".yml") = true.
Proof.
  intros Hfree. unfold clean_segment.
  rewrite !andb_true_iff, !negb_true_iff, !bool_decide_eq_false.
  repeat split.
  - by destruct name.
  - intros H%(f_equal length). rewrite length_app in H. simpl in H. lia.
  - intros H%(f_equal length). rewrite length_app in H. simpl in H. lia.
  - by rewrite forallb_app, Hfree.
Qed.

(** X23. An id without a slash names a file directly inside the recipes
    directory, whatever else it contains: [recipeFilePath] gives
    [<recipesDir>/<id>.yml]. *)
Theorem recipeFilePath_inside (segs : list str) (id : str) :
  forallb clean_segment segs = true →
  forallb (λ c, negb (c =? slash)) id = true →
  recipeFilePath (abs_path segs) id = abs_path (segs ++ [id ++ lit ".yml"]).
Proof.
  intros Hsegs Hid. unfold recipeFilePath.
  apply path_join_abs_path; [done|]. by apply yml_name_clean.
Qed.

Lemma recipeFilePath_inside_witness :
  recipeFilePath (lit "/srv/app/recipes") (lit "..")
  = lit "/srv/app/recipes/...yml".
Proof.
  apply (recipeFilePath_inside [lit "srv"; lit "app"; lit "recipes"] (lit ".."));
    reflexivity.
Defined.

Lemma id_pattern_clean id :
  id_pattern id = true →
  clean_segment id = true ∧ no_surrogates id = true
  ∧ ∃ c rest, id = c :: rest ∧ c ≠ 46.
Proof.
  intros Hid.
  assert (Hname : projectName_pattern id = true).
  { unfold id_pattern in Hid. destruct id as [|c s]; [done|]. simpl in *.
    destruct (is_lower c || is_digit c) eqn:E; simpl in *.
    - by apply id_groups_chars in Hid.
    - by destruct (c =? 45). }
  split; [by apply projectName_pattern_clean|].
  assert (Hchar : ∀ x, is_lower x || is_digit x || (x =? 45) = true →
            negb (is_high_surrogate x) && negb (is_low_surrogate x) = true
            ∧ x ≠ 46).
  { intros x. unfold is_lower, is_digit, is_high_surrogate, is_low_surrogate.
    rewrite !orb_true_iff, !andb_true_iff, !negb_true_iff, !andb_false_iff,
            !N.leb_le, !N.leb_gt, N.eqb_eq. lia. }
  destruct id as [|c s]; [done|]. simpl in Hname.
  apply andb_true_iff in Hname as [Hc Hs].
  assert (Hc' : is_lower c || is_digit c || (c =? 45) = true) by by rewrite Hc.
  split.
  - simpl. apply andb_true_iff. split; [by apply Hchar|].
    apply forallb_forall. intros x Hx. apply Hchar.
    by apply (proj1 (forallb_forall _ s) Hs).
  - exists c, s. split; [done|]. by apply Hchar.
Qed.

Lemma sanitize_timestamp_keeps now :
  forallb (λ c, negb (c =? slash)) now = true → no_surrogates now = true →
  forallb (λ c, negb (c =? slash)) (sanitize_timestamp now) = true
  ∧ no_surrogates (sanitize_timestamp now) = true.
Proof.
  unfold sanitize_timestamp, no_surrogates.
  induction now as [|c now IH]; [done|]. simpl.
  intros [Hc Hnow]%andb_true_iff [Hs Hsnow]%andb_true_iff.
  destruct (IH Hnow Hsnow) as [IH1 IH2]. rewrite IH1, IH2.
  destruct ((c =? 58) || (c =? 46)); [done|]. by rewrite Hc, Hs.
Qed.

(** X24. [updateRecipe] keeps the previous text: for a recipes directory
    that is a normalised absolute path, its [.history] directory, an id
    that passes the schema and a clock text without slashes, if the recipe
    file exists then the call returns, the recipe file afterwards holds the
    new YAML text, and the old text is in
    [.history/<id>/<timestamp>.yml], the timestamp being the clock text with
    [:] and [.] turned into [-]. *)
Theorem updateRecipe_keeps_backup (rsegs : list str) (now : str)
    (files : gmap str str) (id yamlText old : str) :
  forallb clean_segment rsegs = true → rsegs ≠ [] →
  id_pattern id = true →
  forallb (λ c, negb (c =? slash)) now = true → no_surrogates now = true →
  readFile files (recipeFilePath (abs_path rsegs) id) = Some old →
  let run := updateRecipe (abs_path rsegs) (abs_path (rsegs ++ [lit ".history"]))
               now files id yamlText in
  let after := apply_ops run.1 files in
  run.2 = Return tt
  ∧ readFile after (recipeFilePath (abs_path rsegs) id) = Some (utf8_text yamlText)
  ∧ readFile after
      (abs_path (rsegs ++ [lit ".history"; id; sanitize_timestamp now ++ lit ".yml"]))
    = Some (utf8_text old).
Proof.
  intros Hrsegs Hne Hid Hfree Hsur Hread.
  destruct (id_pattern_clean id Hid) as (Hclean & Hidsur & c & rest & -> & Hc).
  destruct (sanitize_timestamp_keeps now Hfree Hsur) as [Htfree Htsur].
  set (id := c :: rest) in *. set (ts := sanitize_timestamp now) in *.
  assert (Hhist : forallb clean_segment (rsegs ++ [lit ".history"]) = true)
    by by rewrite forallb_app, Hrsegs.
  assert (Hhid : forallb clean_segment ((rsegs ++ [lit ".history"]) ++ [id]) = true).
  { rewrite forallb_app, Hhist. simpl. by rewrite Hclean. }
  assert (Hfile : recipeFilePath (abs_path rsegs) id
                  = abs_path rsegs ++ slash :: id ++ lit ".yml").
  { unfold recipeFilePath.
    rewrite path_join_abs_path, abs_path_snoc; try done.
    by apply yml_name_clean, clean_segment_free. }
  assert (Hback : path_join [path_join [abs_path (rsegs ++ [lit ".history"]); id];
                             ts ++ lit ".yml"]
                  = abs_path rsegs
                    ++ slash :: lit ".history" ++ slash :: id
                    ++ slash :: ts ++ lit ".yml").
  { rewrite (path_join_abs_path (rsegs ++ [lit ".history"]) id) by done.
    rewrite path_join_abs_path by (done || by apply yml_name_clean).
    rewrite !abs_path_snoc by (done || by destruct rsegs).
    by rewrite <- !app_assoc. }
  assert (Hpath : abs_path (rsegs ++ [lit ".history"; id; ts ++ lit ".yml"])
                  = abs_path rsegs
                    ++ slash :: lit ".history" ++ slash :: id
                    ++ slash :: ts ++ lit ".yml").
  { change (rsegs ++ [lit ".history"; id; ts ++ lit ".yml"])
      with (rsegs ++ [lit ".history"] ++ [id] ++ [ts ++ lit ".yml"]).
    rewrite !app_assoc.
    rewrite !abs_path_snoc by (done || by destruct rsegs).
    by rewrite <- !app_assoc. }
  assert (Hrun : updateRecipe (abs_path rsegs) (abs_path (rsegs ++ [lit ".history"]))
                   now files id yamlText
                 = ([ Mkdir (path_join [abs_path (rsegs ++ [lit ".history"]); id]);
                      WriteFile (abs_path rsegs
                                 ++ slash :: lit ".history" ++ slash :: id
                                 ++ slash :: ts ++ lit ".yml") old;
                      WriteFile (abs_path rsegs ++ slash :: id ++ lit ".yml") yamlText ],
                    Return tt)).
  { unfold updateRecipe. cbv zeta. rewrite Hread. fold ts. rewrite Hback, Hfile.
    reflexivity. }
  cbv zeta. rewrite Hrun, Hfile, Hpath. cbn [fst snd].
  unfold readFile, apply_ops. cbn [fold_left apply_op].
  assert (Hu1 : utf8_text (abs_path rsegs ++ slash :: id ++ lit ".yml")
                = utf8_text (abs_path rsegs) ++ slash :: id ++ lit ".yml").
  { apply utf8_text_app. unfold no_surrogates in *.
    change (slash :: id ++ lit ".yml") with ([slash] ++ id ++ lit ".yml").
    by rewrite !forallb_app, Hidsur. }
  assert (Hu2 : utf8_text (abs_path rsegs
                           ++ slash :: lit ".history" ++ slash :: id
                           ++ slash :: ts ++ lit ".yml")
                = utf8_text (abs_path rsegs)
                  ++ slash :: lit ".history" ++ slash :: id
                  ++ slash :: ts ++ lit ".yml").
  { apply utf8_text_app. unfold no_surrogates in *.
    change (slash :: lit ".history" ++ slash :: id ++ slash :: ts ++ lit ".yml")
      with ((slash :: lit ".history") ++ [slash] ++ id ++ [slash] ++ ts ++ lit ".yml").
    by rewrite !forallb_app, Hidsur, Htsur. }
  rewrite Hu1, Hu2.
  split; [done|]. split.
  - apply lookup_insert_eq.
  - rewrite lookup_insert_ne; [apply lookup_insert_eq|].
    intros H%app_inv_head. unfold id in H. simpl in H.
    injection H as H _. by apply Hc.
Qed.

Lemma updateRecipe_keeps_backup_witness :
  let files : gmap str str := {[ lit "/srv/app/recipes/pg.yml" := lit "id: pg" ]} in
  let run := updateRecipe (lit "/srv/app/recipes") (lit "/srv/app/recipes/.history")
               (lit "2026-01-02T03:04:05.678Z") files (lit "pg") (lit "id: pg # new") in
  readFile (apply_ops run.1 files)
           (lit "/srv/app/recipes/.history/pg/2026-01-02T03-04-05-678Z.yml")
  = Some (lit "id: pg")
  ∧ readFile (apply_ops run.1 files) (lit "/srv/app/recipes/pg.yml")
    = Some (lit "id: pg # new").
Proof.
  intros files run.
  destruct (updateRecipe_keeps_backup [lit "srv"; lit "app"; lit "recipes"]
              (lit "2026-01-02T03:04:05.678Z") files (lit "pg")
              (lit "id: pg # new") (lit "id: pg"))
    as (_ & Hnew & Hold); try reflexivity; [done|].
  split.
  - etrans; [exact Hold|]. reflexivity.
  - etrans; [exact Hnew|]. reflexivity.
Defined.
